(** * fix_svelte_files.py: a batch text patcher, and its specification

    The script walks a fixed list of Svelte page files.  For each file it
    reads the whole text, rewrites it with two [re.sub] calls and writes it
    back; every exception raised on the way is caught per file and printed.

    The development has three layers:
    - [Text] and [Re]: Python text (a sequence of code points), the
      substring test [in], and the fragment of Python's regular expressions
      the script uses, with the backtracking matcher and [re.sub];
    - the two transforms of the script ([step2], [step3]) and their
      composition [transform];
    - the loop over the files, in a small exception-and-state monad over a
      model of the file system and of standard output. *)

From Stdlib Require Import NArith Ascii String Lia.
From Equations Require Import Equations.
From stdpp Require Import base option list strings gmap.

Local Open Scope N_scope.
Local Open Scope nat_scope.
Local Open Scope list_scope.

(** ** Text *)

(** A Python [str] is a sequence of Unicode code points. *)
Definition char := N.
Definition str := list char.

Definition chr (a : ascii) : char := N_of_ascii a.
Arguments chr : simpl never.

(** The text of an ASCII literal of the script. *)
Definition lit (s : string) : str := map N_of_ascii (list_ascii_of_string s).

(** The line feed, written [\n] in the script. *)
Definition LF : char := 10%N.

Module Text.

(** [s[0:len(n)] == n] *)
Fixpoint starts_with (n s : str) : bool :=
  match n, s with
  | [], _ => true
  | _ :: _, [] => false
  | c :: n', x :: s' => N.eqb x c && starts_with n' s'
  end.

(** Python's [n in s] on strings: [n] occurs in [s] as a substring. *)
Fixpoint str_in (n s : str) : bool :=
  starts_with n s ||
  match s with
  | [] => false
  | _ :: s' => str_in n s'
  end.

(** The number of positions of [s] at which [n] occurs. *)
Fixpoint occurrences (n s : str) : nat :=
  (if starts_with n s then 1 else 0) +
  match s with
  | [] => 0
  | _ :: s' => occurrences n s'
  end.

(** [n] occurs in [s], as a proposition. *)
Definition contains (n s : str) : Prop :=
  exists pre post, s = pre ++ n ++ post.

End Text.

(** ** Regular expressions *)

Module Re.

(** What [\s] matches in a [str] pattern: the code points for which
    [str.isspace] holds. *)
Definition is_space (c : char) : bool :=
  (N.leb 9 c && N.leb c 13) || (N.leb 28 c && N.leb c 32) ||
  N.eqb c 133 || N.eqb c 160 || N.eqb c 5760 ||
  (N.leb 8192 c && N.leb c 8202) ||
  N.eqb c 8232 || N.eqb c 8233 || N.eqb c 8239 || N.eqb c 8287 ||
  N.eqb c 12288.

(** The pieces the script's two patterns are made of: a literal character
    (escaped or not), the dot, and [\s*].  A pattern is their sequence. *)
Inductive item :=
| Lit (c : char)
| Dot
| SpaceStar.

Definition pattern := list item.

Definition lits (s : string) : pattern := map Lit (lit s).

(** Matching [p] at the start of [s], as the backtracking engine does it:
    [\s*] is greedy, it first takes every whitespace character it can and
    gives them back one at a time while the rest of the pattern fails.  The
    dot matches any character but the line feed (no DOTALL flag).  The
    result is the length of the match. *)
Fixpoint match_here (p : pattern) (s : str) {struct p} : option nat :=
  match p with
  | [] => Some 0
  | Lit c :: p' =>
      match s with
      | x :: s' => if N.eqb x c then S <$> match_here p' s' else None
      | [] => None
      end
  | Dot :: p' =>
      match s with
      | x :: s' => if N.eqb x LF then None else S <$> match_here p' s'
      | [] => None
      end
  | SpaceStar :: p' =>
      (fix star (s : str) : option nat :=
         match s with
         | x :: s' =>
             if is_space x
             then match star s' with
                  | Some n => Some (S n)
                  | None => match_here p' s
                  end
             else match_here p' s
         | [] => match_here p' s
         end) s
  end.

(** [re.search(p, s) is not None]: the pattern matches somewhere in [s]. *)
Fixpoint search (p : pattern) (s : str) : bool :=
  bool_decide (is_Some (match_here p s)) ||
  match s with
  | [] => false
  | _ :: s' => search p s'
  end.

(** A replacement template: literal characters and the back-reference
    [\1].  In the one pattern that has a group, the group encloses the
    whole pattern, so [\1] stands for the matched text. *)
Inductive titem :=
| TChar (c : char)
| TGroup1.

Definition template := list titem.

Definition tlits (s : string) : template := map TChar (lit s).

Definition expand (t : template) (m : str) : str :=
  flat_map (fun i => match i with TChar c => [c] | TGroup1 => m end) t.

(** [re.sub(p, t, s)]: scan [s] from the left; where the pattern matches,
    emit the expanded template and go on after the match; elsewhere copy
    one character.  An empty match is replaced too, and the scan then moves
    one character on (Python 3.7 and later). *)
Equations? sub (p : pattern) (t : template) (s : str) : str
  by wf (length s) lt :=
  sub p t [] :=
    match match_here p [] with
    | Some _ => expand t []
    | None => []
    end;
  sub p t (x :: s') with match_here p (x :: s') := {
    | Some (S n) => expand t (take (S n) (x :: s')) ++ sub p t (drop n s');
    | Some 0 => expand t [] ++ x :: sub p t s';
    | None => x :: sub p t s' }.
Proof.
  all: simpl; try lia.
  rewrite length_drop. lia.
Qed.

(** The words a pattern denotes: [lang p m] when [m] is a match of [p]. *)
Fixpoint lang (p : pattern) (m : str) : Prop :=
  match p with
  | [] => m = []
  | Lit c :: p' => exists m', m = c :: m' /\ lang p' m'
  | Dot :: p' => exists x m', m = x :: m' /\ x <> LF /\ lang p' m'
  | SpaceStar :: p' =>
      exists w m', m = w ++ m' /\ Forall (fun x => is_space x = true) w /\ lang p' m'
  end.

(** Some substring of [s] is a match of [p]. *)
Definition has_match (p : pattern) (s : str) : Prop :=
  exists pre m post, s = pre ++ m ++ post /\ lang p m.

(** No match of [p] starts within the first [k] characters of [s]. *)
Fixpoint none_before (p : pattern) (k : nat) (s : str) : bool :=
  match k with
  | 0 => true
  | S k' =>
      negb (bool_decide (is_Some (match_here p s))) &&
      match s with
      | [] => true
      | _ :: s' => none_before p k' s'
      end
  end.

(** Patterns in which every [\s*] is followed by a literal that is not
    whitespace: there the greedy star never has to give anything back. *)
Fixpoint separated (p : pattern) : bool :=
  match p with
  | [] => true
  | SpaceStar :: p' =>
      match p' with
      | Lit c :: _ => negb (is_space c) && separated p'
      | _ => false
      end
  | _ :: p' => separated p'
  end.

(** The characters an item can match, and those that can occur in a match
    of a pattern. *)
Definition admits (i : item) (c : char) : bool :=
  match i with
  | Lit d => N.eqb c d
  | Dot => negb (N.eqb c LF)
  | SpaceStar => is_space c
  end.

Definition alphabet (p : pattern) (c : char) : bool :=
  existsb (fun i => admits i c) p.

End Re.

(** ** The two transforms *)

(** [r'\{\s*supabase,\s*session\s*\}\s*=\s*data'] *)
Definition binding_re : Re.pattern :=
  Re.lits "{" ++ [Re.SpaceStar] ++ Re.lits "supabase," ++ [Re.SpaceStar] ++
  Re.lits "session" ++ [Re.SpaceStar] ++ Re.lits "}" ++ [Re.SpaceStar] ++
  Re.lits "=" ++ [Re.SpaceStar] ++ Re.lits "data".

(** ['{ session } = data'] *)
Definition binding_repl : Re.template := Re.tlits "{ session } = data".

(** [r"(import type \{ PageData \} from '.\/\$types';)"] *)
Definition type_import_re : Re.pattern :=
  Re.lits "import type { PageData } from '" ++ [Re.Dot] ++ Re.lits "/$types';".

(** [r"\1\n  import { supabase } from '$lib/supabase';"] *)
Definition import_repl : Re.template :=
  [Re.TGroup1; Re.TChar LF] ++ Re.tlits "  import { supabase } from '$lib/supabase';".

Definition marker_import : str := lit "import { supabase }".
Definition marker_module : str := lit "$lib/supabase".

(** Step 2, the binding-narrowing transform. *)
Definition step2 (content : str) : str :=
  Re.sub binding_re binding_repl content.

(** Step 3, the import-presence transform. *)
Definition step3 (content : str) : str :=
  if negb (Text.str_in marker_import content) &&
     negb (Text.str_in marker_module content)
  then Re.sub type_import_re import_repl content
  else content.

(** What one iteration does to the text between reading and writing. *)
Definition transform (content : str) : str := step3 (step2 content).

(** ** The run over the files *)

Definition files_to_fix : list string :=
  [ "/Users/sheldonzhao/programs/FlowReader/apps/web/src/routes/notes/search/+page.svelte";
    "/Users/sheldonzhao/programs/FlowReader/apps/web/src/routes/library/+page.svelte";
    "/Users/sheldonzhao/programs/FlowReader/apps/web/src/routes/read/[bookId]/+page.svelte";
    "/Users/sheldonzhao/programs/FlowReader/apps/web/src/routes/read/[bookId]/notes/+page.svelte" ]%string.

(** The exceptions of the model.  [open] and [read] raise the first four;
    [OSError] stands for any other error of the operating system, with its
    message (a full device, a broken pipe, a path through a regular file).
    These are subclasses of [Exception]; [KeyboardInterrupt] derives from
    [BaseException] only, and [except Exception] lets it through. *)
Inductive exn :=
| FileNotFoundError (path : string)
| IsADirectoryError (path : string)
| PermissionError (path : string)
| UnicodeDecodeError (message : string)
| OSError (message : string)
| KeyboardInterrupt.

Definition is_Exception (e : exn) : bool :=
  match e with
  | KeyboardInterrupt => false
  | _ => true
  end.

(** [str(e)], what the f-string of the handler prints for [e]. *)
Definition exn_str (e : exn) : string :=
  match e with
  | FileNotFoundError p => "[Errno 2] No such file or directory: '" +:+ p +:+ "'"
  | IsADirectoryError p => "[Errno 21] Is a directory: '" +:+ p +:+ "'"
  | PermissionError p => "[Errno 13] Permission denied: '" +:+ p +:+ "'"
  | UnicodeDecodeError m => m
  | OSError m => m
  | KeyboardInterrupt => ""
  end%string.

(** What a path of the file system holds.  The text of a file is what
    [read()] returns for it in text mode; [inl m] stands for bytes that the
    default encoding rejects, with the message of the decoding error.
    Every path has a node of its own: links between paths are not
    modelled. *)
Inductive node :=
| Dir
| File (readable writable : bool) (text : string + str).

(** The calls the script makes on the file system, with their outcome. *)
Inductive op :=
| OpRead (path : string) (ok : bool)
| OpWrite (path : string) (ok : bool).

Record world := World {
  disk : gmap string node;
  stdout : list string;
  ops : list op }.

(** Computations that read and change the world and may raise. *)
Definition io (A : Type) : Type := world -> (exn + A) * world.

#[global] Instance io_ret : MRet io := fun A a w => (inr a, w).

#[global] Instance io_bind : MBind io := fun A B k c w =>
  match c w with
  | (inr a, w') => k a w'
  | (inl e, w') => (inl e, w')
  end.

Definition raise {A} (e : exn) : io A := fun w => (inl e, w).

(** [try: body; except Exception as e: handler e] *)
Definition try_except {A} (body : io A) (handler : exn -> io A) : io A :=
  fun w =>
    match body w with
    | (inl e, w') => if is_Exception e then handler e w' else (inl e, w')
    | r => r
    end.

(** [for x in l: body x] *)
Fixpoint for_each {A} (l : list A) (body : A -> io unit) : io unit :=
  match l with
  | [] => mret tt
  | x :: l' => body x ≫= fun _ => for_each l' body
  end.

Definition log_op (o : op) : io unit :=
  fun w => (inr tt, World (disk w) (stdout w) (ops w ++ [o])).

(** [with open(path, 'r') as f: return f.read()], with the failures of
    [open] and [read] that the nodes can express: a missing file, a
    directory, a file without read permission, bytes that do not decode. *)
Definition read_text (path : string) : io str :=
  fun w =>
    match disk w !! path with
    | None => (log_op (OpRead path false) ≫= fun _ => raise (FileNotFoundError path)) w
    | Some Dir => (log_op (OpRead path false) ≫= fun _ => raise (IsADirectoryError path)) w
    | Some (File false _ _) =>
        (log_op (OpRead path false) ≫= fun _ => raise (PermissionError path)) w
    | Some (File true _ (inl m)) =>
        (log_op (OpRead path false) ≫= fun _ => raise (UnicodeDecodeError m)) w
    | Some (File true _ (inr content)) =>
        (log_op (OpRead path true) ≫= fun _ => mret content) w
    end.

Definition set_node (path : string) (n : node) : io unit :=
  fun w => (inr tt, World (<[path := n]> (disk w)) (stdout w) (ops w)).

(** [with open(path, 'w') as f: f.write(content)].  Opening a path that
    does not exist creates the file.  The failures are those of [open], a
    directory or a file without write permission, which leave the file as
    it is; a write that fails after [open] has emptied the file is not
    modelled here ([fix_file_with] takes any [write]). *)
Definition write_text (path : string) (content : str) : io unit :=
  fun w =>
    match disk w !! path with
    | None =>
        (log_op (OpWrite path true) ≫= fun _ =>
         set_node path (File true true (inr content))) w
    | Some Dir => (log_op (OpWrite path false) ≫= fun _ => raise (IsADirectoryError path)) w
    | Some (File _ false _) =>
        (log_op (OpWrite path false) ≫= fun _ => raise (PermissionError path)) w
    | Some (File r true _) =>
        (log_op (OpWrite path true) ≫= fun _ =>
         set_node path (File r true (inr content))) w
    end.

(** Standard output as the script meets it: given the lines printed so
    far, whether the next [print] raises, and what.  [accepting] is an
    output that takes every line. *)
Definition console : Type := list string -> option exn.

Definition accepting : console := fun _ => None.

(** [print(line)] on the output [c]. *)
Definition print_to (c : console) (line : string) : io unit :=
  fun w =>
    match c (stdout w) with
    | Some e => (inl e, w)
    | None => (inr tt, World (disk w) (stdout w ++ [line]) (ops w))
    end.

(** [print(line)] on an output that takes every line. *)
Definition print (line : string) : io unit := print_to accepting line.

(** The body of the loop, over any way [read] of reading a file, any way
    [write] of writing one, and any output [c]. *)
Definition fix_file_with (read : string -> io str)
    (write : string -> str -> io unit) (c : console) (filepath : string) : io unit :=
  try_except
    (content ← read filepath;
     let content := step2 content in
     let content := step3 content in
     write filepath content ≫= fun _ =>
     print_to c ("Fixed: " +:+ filepath))
    (fun e => print_to c ("Error fixing " +:+ filepath +:+ ": " +:+ exn_str e)).

(** The script from its first line to its last, over the same. *)
Definition main_with (read : string -> io str)
    (write : string -> str -> io unit) (c : console) : io unit :=
  for_each files_to_fix (fix_file_with read write c) ≫= fun _ =>
  print_to c "All files fixed!".

(** The loop body and the script on the file system of [read_text] and
    [write_text], with an output that takes every line. *)
Definition fix_file (filepath : string) : io unit :=
  fix_file_with read_text write_text accepting filepath.

Definition main : io unit := main_with read_text write_text accepting.

(** The exit status of the process: 0 when the script runs to its end; 1
    when an exception reaches the top level, but 130 (death by SIGINT, as
    the shell reports it) for a [KeyboardInterrupt]. *)
Definition exit_status {A} (r : exn + A) : nat :=
  match r with
  | inr _ => 0
  | inl KeyboardInterrupt => 130
  | inl _ => 1
  end.

(** ** The vocabulary of the specification *)

(** A run of whitespace. *)
Definition is_ws (w : str) : Prop := Forall (fun x => Re.is_space x = true) w.

(** The two-name destructure with its spacing: [ws1] to [ws5] are the five
    runs of whitespace the pattern of the script allows. *)
Definition two_name (ws1 ws2 ws3 ws4 ws5 : str) : str :=
  lit "{" ++ ws1 ++ lit "supabase," ++ ws2 ++ lit "session" ++ ws3 ++
  lit "}" ++ ws4 ++ lit "=" ++ ws5 ++ lit "data".

(** The two-name destructure in the words of the specification: the tokens
    [{], [supabase], [,], [session], [}], [=], [data], with arbitrary
    whitespace between any two neighbours. *)
Definition two_name_tokens : Re.pattern :=
  Re.lits "{" ++ [Re.SpaceStar] ++ Re.lits "supabase" ++ [Re.SpaceStar] ++
  Re.lits "," ++ [Re.SpaceStar] ++ Re.lits "session" ++ [Re.SpaceStar] ++
  Re.lits "}" ++ [Re.SpaceStar] ++ Re.lits "=" ++ [Re.SpaceStar] ++
  Re.lits "data".

(** The text holds a two-name destructure as the pattern of the script
    spaces it. *)
Definition has_two_name (s : str) : Prop :=
  exists pre ws1 ws2 ws3 ws4 ws5 post,
    is_ws ws1 /\ is_ws ws2 /\ is_ws ws3 /\ is_ws ws4 /\ is_ws ws5 /\
    s = pre ++ two_name ws1 ws2 ws3 ws4 ws5 ++ post.

(** The one-name destructure that replaces it. *)
Definition one_name : str := lit "{ session } = data".

(** The anchor line, and the line with another character in the place of
    the dot of ['./$types']. *)
Definition anchor_with (c : char) : str :=
  lit "import type { PageData } from '" ++ c :: lit "/$types';".

Definition anchor_line : str := lit "import type { PageData } from './$types';".

(** The text holds a line the anchor pattern matches. *)
Definition has_anchor (s : str) : Prop :=
  exists pre c post, c <> LF /\ s = pre ++ anchor_with c ++ post.

(** The import line of step 3, and what [re.sub] puts after the anchor:
    a line feed and that line. *)
Definition import_line : str := lit "  import { supabase } from '$lib/supabase';".

Definition inserted_text : str := LF :: import_line.

(** Both import markers are missing from the text. *)
Definition markers_missing (content : str) : bool :=
  negb (Text.str_in marker_import content) &&
  negb (Text.str_in marker_module content).

(** [inserted t u]: [u] is [t] with copies of the inserted text put after
    some of its semicolons. *)
Inductive inserted : str -> str -> Prop :=
| inserted_nil : inserted [] []
| inserted_keep x t u : inserted t u -> inserted (x :: t) (x :: u)
| inserted_here t u :
    inserted t u -> inserted (chr ";" :: t) (chr ";" :: inserted_text ++ u).

(** In a record of file-system calls, every write follows at once a read
    of the same path that succeeded. *)
Fixpoint guarded (l : list op) : bool :=
  match l with
  | [] => true
  | OpWrite _ _ :: _ => false
  | OpRead p ok :: l' =>
      match l' with
      | OpWrite q _ :: l'' => ok && bool_decide (p = q) && guarded l''
      | _ => guarded l'
      end
  end.

(** The line an iteration prints for [path]: the confirmation, or the
    diagnostic of an exception that [except Exception] catches. *)
Definition report_of (path line : string) : Prop :=
  line = ("Fixed: " +:+ path)%string \/
  exists e, is_Exception e = true /\
            line = ("Error fixing " +:+ path +:+ ": " +:+ exn_str e)%string.

(** The world after one more call on the file system. *)
Definition logged (w : world) (o : op) : world :=
  World (disk w) (stdout w) (ops w ++ [o]).

(** What an iteration attempts before it reports: to read the file, to
    transform the text and to write it back. *)
Definition attempt (read : string -> io str) (write : string -> str -> io unit)
    (path : string) : io unit :=
  content ← read path; write path (step3 (step2 content)).

(** The line that reports the outcome of an attempt. *)
Definition line_of (path : string) (outcome : exn + unit) : string :=
  match outcome with
  | inr _ => "Fixed: " +:+ path
  | inl e => "Error fixing " +:+ path +:+ ": " +:+ exn_str e
  end.

(** The world after one more line on standard output. *)
Definition printed (w : world) (line : string) : world :=
  World (disk w) (stdout w ++ [line]) (ops w).

(** An iteration that reports: the attempt is made, and the line for its
    outcome is printed in the world the attempt leaves. *)
Definition iteration (read : string -> io str) (write : string -> str -> io unit)
    (w : world) (path : string) : world :=
  printed (snd (attempt read write path w)) (line_of path (fst (attempt read write path w))).

(** Reading [path] succeeds in [w]. *)
Definition readable (w : world) (path : string) : bool :=
  match disk w !! path with
  | Some (File true _ (inr _)) => true
  | _ => false
  end.

(** Writing [path] succeeds in [w]. *)
Definition writable (w : world) (path : string) : bool :=
  match disk w !! path with
  | None | Some (File _ true _) => true
  | _ => false
  end.


(** ** What a run leaves behind *)

(** The exception that ends the iteration for [path] in the world [w]: the
    one the read raises or, when the read succeeds, the one the write
    raises; [None] when both succeed. *)
Definition failure (w : world) (path : string) : option exn :=
  match disk w !! path with
  | None => Some (FileNotFoundError path)
  | Some Dir => Some (IsADirectoryError path)
  | Some (File false _ _) => Some (PermissionError path)
  | Some (File true _ (inl m)) => Some (UnicodeDecodeError m)
  | Some (File true false (inr _)) => Some (PermissionError path)
  | Some (File true true (inr _)) => None
  end.

(** The line the iteration for [path] prints. *)
Definition report (w : world) (path : string) : string :=
  match failure w path with
  | None => "Fixed: " +:+ path
  | Some e => "Error fixing " +:+ path +:+ ": " +:+ exn_str e
  end.

(** The calls the iteration for [path] makes on the file system. *)
Definition calls (w : world) (path : string) : list op :=
  if readable w path
  then [OpRead path true; OpWrite path (writable w path)]
  else [OpRead path false].

(** What an iteration makes of the node at its path: the text of a file
    that can be read and written is transformed, anything else stays. *)
Definition fixed_node (n : node) : node :=
  match n with
  | File true true (inr content) => File true true (inr (transform content))
  | _ => n
  end.

(** The disk after the iterations for the paths of [l]. *)
Definition fixed_disk (l : list string) (d : gmap string node) : gmap string node :=
  foldl (fun d path => alter fixed_node path d) d l.

(** The path of a call, and whether the call is a read. *)
Definition op_path (o : op) : string :=
  match o with
  | OpRead p _ | OpWrite p _ => p
  end.

Definition is_read (o : op) : bool :=
  match o with
  | OpRead _ _ => true
  | OpWrite _ _ => false
  end.

(** ** How the two steps relate *)

(** [clash v u]: [v] and [u] differ at a position that both have. *)
Fixpoint clash (v u : str) : bool :=
  match v, u with
  | y :: v', z :: u' => negb (N.eqb y z) || clash v' u'
  | _, _ => false
  end.

(** No brace of [w] can be the brace of the one-name form: what follows
    it in [w] differs from what follows the brace there. *)
Fixpoint brace_safe (w : str) : bool :=
  match w with
  | [] => true
  | c :: v => (negb (N.eqb c (chr "{")) || clash v (tail one_name)) && brace_safe v
  end.

(** * Properties *)

(** ** Substrings *)

Section TextFacts.

Import Text.

Lemma starts_with_spec (n s : str) :
  starts_with n s = true <-> exists t, s = n ++ t.
Proof.
  revert s. induction n as [|c n IH]; intros s.
  - simpl. split; eauto.
  - destruct s as [|x s]; simpl.
    + split; [discriminate | intros [t Ht]; discriminate].
    + rewrite andb_true_iff, N.eqb_eq, IH. split.
      * intros [-> [t ->]]. eauto.
      * intros [t Ht]. injection Ht as -> ->. eauto.
Qed.

Lemma starts_with_app (n t : str) : starts_with n (n ++ t) = true.
Proof. apply starts_with_spec. eauto. Qed.

Lemma str_in_spec (n s : str) : str_in n s = true <-> contains n s.
Proof.
  unfold contains. induction s as [|x s IH]; simpl.
  - rewrite orb_false_r, starts_with_spec. split.
    + intros [t Ht]. exists [], t. exact Ht.
    + intros (pre & post & H). destruct pre; [|discriminate].
      simpl in H. eauto.
  - rewrite orb_true_iff, starts_with_spec, IH. split.
    + intros [[t Ht] | (pre & post & H)].
      * exists [], t. exact Ht.
      * exists (x :: pre), post. simpl. now rewrite H.
    + intros (pre & post & H). destruct pre as [|y pre]; simpl in H.
      * left. eauto.
      * right. injection H as -> ->. eauto.
Qed.

Lemma str_in_false (n s : str) : str_in n s = false <-> ~ contains n s.
Proof. rewrite <- str_in_spec. destruct (str_in n s); intuition congruence. Qed.

Lemma contains_app_r (n a s : str) : contains n s -> contains n (a ++ s).
Proof.
  intros (pre & post & ->). exists (a ++ pre), post. now rewrite <- app_assoc.
Qed.

Lemma contains_app_l (n s b : str) : contains n s -> contains n (s ++ b).
Proof.
  intros (pre & post & ->). exists pre, (post ++ b). now rewrite <- !app_assoc.
Qed.

(** A needle without the character [c] does not see beyond a [c]. *)
Lemma starts_with_blocked (n l1 l2 : str) (c : char) :
  c ∉ n -> starts_with n (l1 ++ c :: l2) = starts_with n l1.
Proof.
  revert l1. induction n as [|d n IH]; intros l1 Hc; [reflexivity|].
  apply not_elem_of_cons in Hc as [Hcd Hc].
  destruct l1 as [|x l1]; simpl.
  - destruct (N.eqb_spec c d); [congruence | reflexivity].
  - now rewrite IH.
Qed.

Lemma occurrences_blocked (n l1 l2 : str) (c : char) :
  n <> [] -> c ∉ n ->
  occurrences n (l1 ++ c :: l2) = occurrences n l1 + occurrences n l2.
Proof.
  intros Hn Hc. induction l1 as [|x l1 IH].
  - destruct n as [|d n]; [congruence|].
    apply not_elem_of_cons in Hc as [Hcd _]. simpl.
    destruct (N.eqb_spec c d); [congruence | reflexivity].
  - simpl app. cbn [occurrences]. rewrite IH.
    change (x :: l1 ++ c :: l2) with ((x :: l1) ++ c :: l2).
    rewrite starts_with_blocked by exact Hc. lia.
Qed.

Lemma occurrences_0 (n s : str) : str_in n s = false -> occurrences n s = 0.
Proof.
  induction s as [|x s IH]; simpl; intros H; apply orb_false_iff in H as [-> H].
  - reflexivity.
  - now rewrite IH.
Qed.

Lemma starts_with_trans (n m s : str) :
  starts_with n m = true -> starts_with m s = true -> starts_with n s = true.
Proof.
  rewrite !starts_with_spec. intros [t ->] [u ->].
  exists (t ++ u). now rewrite app_assoc.
Qed.

(** If [n] begins with [m] and [m] does not occur, neither does [n]. *)
Lemma str_in_prefix_false (n m s : str) :
  starts_with m n = true -> str_in m s = false -> str_in n s = false.
Proof.
  intros Hmn. rewrite !str_in_false. intros H (pre & post & ->). apply H.
  apply starts_with_spec in Hmn as [t ->].
  exists pre, (t ++ post). now rewrite <- app_assoc.
Qed.

End TextFacts.

(** ** The matcher and its language *)

Section ReFacts.

Import Re.

Lemma match_here_star_nil (p : pattern) :
  match_here (SpaceStar :: p) [] = match_here p [].
Proof. reflexivity. Qed.

Lemma match_here_star_cons (p : pattern) (x : char) (s : str) :
  match_here (SpaceStar :: p) (x :: s) =
  if is_space x
  then match match_here (SpaceStar :: p) s with
       | Some n => Some (S n)
       | None => match_here p (x :: s)
       end
  else match_here p (x :: s).
Proof. reflexivity. Qed.

Lemma lang_star_weaken (p : pattern) (m : str) : lang p m -> lang (SpaceStar :: p) m.
Proof. intros H. exists [], m. auto. Qed.

Lemma lang_star_cons (p : pattern) (x : char) (m : str) :
  is_space x = true -> lang (SpaceStar :: p) m -> lang (SpaceStar :: p) (x :: m).
Proof.
  intros Hx (w & m' & -> & Hw & Hm). exists (x :: w), m'. auto.
Qed.

(** A match the engine reports is a word of the pattern. *)
Lemma match_here_sound (p : pattern) (s : str) (n : nat) :
  match_here p s = Some n -> n <= length s /\ lang p (take n s).
Proof.
  revert s n. induction p as [|i p IH]; intros s n H.
  - injection H as <-. split; [lia | reflexivity].
  - destruct i as [c| |].
    + destruct s as [|x s]; simpl in H; [discriminate|].
      destruct (N.eqb_spec x c) as [->|]; [|discriminate].
      destruct (match_here p s) as [k|] eqn:E; [|discriminate].
      injection H as <-. destruct (IH _ _ E) as [Hk Hl].
      split; [simpl; lia|]. exists (take k s). auto.
    + destruct s as [|x s]; simpl in H; [discriminate|].
      destruct (N.eqb_spec x LF) as [|Hx]; [discriminate|].
      destruct (match_here p s) as [k|] eqn:E; [|discriminate].
      injection H as <-. destruct (IH _ _ E) as [Hk Hl].
      split; [simpl; lia|]. exists x, (take k s). auto.
    + revert n H. induction s as [|x s IHs]; intros n H.
      * rewrite match_here_star_nil in H. destruct (IH _ _ H) as [Hk Hl].
        split; [exact Hk|]. now apply lang_star_weaken.
      * rewrite match_here_star_cons in H.
        destruct (is_space x) eqn:Hx.
        -- destruct (match_here (SpaceStar :: p) s) as [k|] eqn:E.
           ++ injection H as <-. destruct (IHs _ eq_refl) as [Hk Hl].
              split; [simpl; lia|]. now apply lang_star_cons.
           ++ destruct (IH _ _ H) as [Hk Hl].
              split; [exact Hk|]. now apply lang_star_weaken.
        -- destruct (IH _ _ H) as [Hk Hl].
           split; [exact Hk|]. now apply lang_star_weaken.
Qed.

Lemma match_here_star_keep (p : pattern) (s : str) :
  is_Some (match_here p s) -> is_Some (match_here (SpaceStar :: p) s).
Proof.
  intros H. destruct s as [|x s]; [exact H|].
  rewrite match_here_star_cons.
  destruct (is_space x); [|exact H].
  destruct (match_here (SpaceStar :: p) s); [eauto | exact H].
Qed.

(** Where a word of the pattern begins, the engine finds a match. *)
Lemma match_here_complete (p : pattern) (m t : str) :
  lang p m -> is_Some (match_here p (m ++ t)).
Proof.
  revert m. induction p as [|i p IH]; intros m H.
  - simpl. eauto.
  - destruct i as [c| |].
    + destruct H as (m' & -> & H). simpl. rewrite N.eqb_refl.
      destruct (IH _ H) as [k ->]. simpl. eauto.
    + destruct H as (x & m' & -> & Hx & H). simpl.
      destruct (N.eqb_spec x LF); [contradiction|].
      destruct (IH _ H) as [k ->]. simpl. eauto.
    + destruct H as (w & m' & -> & Hw & H). rewrite <- app_assoc.
      induction Hw as [|x w Hx Hw IHw].
      * apply match_here_star_keep, IH, H.
      * simpl app. rewrite match_here_star_cons, Hx.
        destruct IHw as [k ->]. eauto.
Qed.

(** In a separated pattern the match is the word itself, whatever
    follows. *)
Lemma match_here_exact (p : pattern) (m t : str) :
  separated p = true -> lang p m -> match_here p (m ++ t) = Some (length m).
Proof.
  revert m. induction p as [|i p IH]; intros m Hs H.
  - simpl in H. subst. reflexivity.
  - destruct i as [c| |].
    + destruct H as (m' & -> & H). simpl. rewrite N.eqb_refl.
      rewrite (IH _ Hs H). reflexivity.
    + destruct H as (x & m' & -> & Hx & H). simpl.
      destruct (N.eqb_spec x LF); [contradiction|].
      rewrite (IH _ Hs H). reflexivity.
    + destruct H as (w & m' & -> & Hw & H). rewrite <- app_assoc.
      destruct p as [|[c| |] p']; simpl in Hs; try discriminate.
      apply andb_true_iff in Hs as [Hc Hs]. apply negb_true_iff in Hc.
      induction Hw as [|x w Hx Hw IHw].
      * simpl app. pose proof (IH _ Hs H) as E.
        destruct H as (m'' & -> & H). simpl app in *.
        rewrite match_here_star_cons, Hc. exact E.
      * simpl app. rewrite match_here_star_cons, Hx, IHw. reflexivity.
Qed.

(** The characters of a match are characters of the pattern's alphabet. *)
Lemma lang_alphabet (p : pattern) (m : str) :
  lang p m -> Forall (fun c => alphabet p c = true) m.
Proof.
  revert m. induction p as [|i p IH]; intros m H.
  - simpl in H. subst. constructor.
  - assert (Hmono : forall l, Forall (fun c => alphabet p c = true) l ->
                              Forall (fun c => alphabet (i :: p) c = true) l).
    { intros l Hl. eapply Forall_impl; [exact Hl|]. intros c Hc. unfold alphabet in *.
      simpl. rewrite Hc. apply orb_true_r. }
    destruct i as [c| |].
    + destruct H as (m' & -> & H). constructor; [|auto].
      unfold alphabet. simpl. now rewrite N.eqb_refl.
    + destruct H as (x & m' & -> & Hx & H). constructor; [|auto].
      unfold alphabet. simpl. destruct (N.eqb_spec x LF); [contradiction|reflexivity].
    + destruct H as (w & m' & -> & Hw & H). apply Forall_app. split; [|auto].
      eapply Forall_impl; [exact Hw|]. intros c Hc. unfold alphabet. simpl.
      now rewrite Hc.
Qed.

Lemma lang_lits (l : str) (p : pattern) (m : str) :
  lang (map Lit l ++ p) m <-> exists m', m = l ++ m' /\ lang p m'.
Proof.
  revert m. induction l as [|c l IH]; intros m; simpl.
  - split; [eauto | now intros (m' & -> & H)].
  - split.
    + intros (m1 & -> & H). apply IH in H as (m' & -> & H). eauto.
    + intros (m' & -> & H). eexists. split; [reflexivity|]. apply IH. eauto.
Qed.

Lemma lang_lits_end (l m : str) : lang (map Lit l) m <-> m = l.
Proof.
  rewrite <- (app_nil_r (map Lit l)), lang_lits. simpl. split.
  - intros (m' & -> & ->). now rewrite app_nil_r.
  - intros ->. exists []. now rewrite app_nil_r.
Qed.

Lemma lang_star (p : pattern) (m : str) :
  lang ([SpaceStar] ++ p) m <->
  exists w m', m = w ++ m' /\ Forall (fun x => is_space x = true) w /\ lang p m'.
Proof. reflexivity. Qed.

(** A pattern that begins with a literal has no empty match. *)
Lemma match_here_lit_pos (c : char) (p : pattern) (s : str) :
  match_here (Lit c :: p) s <> Some 0.
Proof.
  destruct s as [|x s]; simpl; [discriminate|].
  destruct (N.eqb x c); [|discriminate].
  destruct (match_here p s); discriminate.
Qed.

Lemma match_here_lit_head (c x : char) (p : pattern) (s : str) :
  x <> c -> match_here (Lit c :: p) (x :: s) = None.
Proof. intros H. simpl. destruct (N.eqb_spec x c); [contradiction | reflexivity]. Qed.

Lemma search_unfold (p : pattern) (s : str) :
  search p s =
  bool_decide (is_Some (match_here p s)) ||
  match s with [] => false | _ :: s' => search p s' end.
Proof. destruct s; reflexivity. Qed.

Lemma has_match_cons (p : pattern) (x : char) (s : str) :
  has_match p s -> has_match p (x :: s).
Proof. intros (pre & m & post & -> & H). exists (x :: pre), m, post. auto. Qed.

(** [search] decides [has_match]. *)
Lemma search_spec (p : pattern) (s : str) : search p s = true <-> has_match p s.
Proof.
  split.
  - induction s as [|x s IH]; rewrite search_unfold; intros H;
      apply orb_true_iff in H as [H|H].
    + apply bool_decide_eq_true in H as [n Hn].
      apply match_here_sound in Hn as [Hn Hl].
      exists [], (take n []), []. split; [|exact Hl].
      now destruct n.
    + discriminate.
    + apply bool_decide_eq_true in H as [n Hn].
      apply match_here_sound in Hn as [Hn Hl].
      exists [], (take n (x :: s)), (drop n (x :: s)).
      split; [|exact Hl]. simpl app. now rewrite take_drop.
    + apply has_match_cons, IH, H.
  - intros (pre & m & post & -> & H). induction pre as [|x pre IH].
    + simpl app. rewrite search_unfold. apply orb_true_iff. left.
      apply bool_decide_eq_true. now apply match_here_complete.
    + simpl. apply orb_true_iff. right. exact IH.
Qed.

Lemma search_false (p : pattern) (s : str) : search p s = false <-> ~ has_match p s.
Proof. rewrite <- search_spec. destruct (search p s); intuition congruence. Qed.

Lemma search_false_head (p : pattern) (s : str) :
  search p s = false -> match_here p s = None.
Proof.
  rewrite search_unfold. intros H. apply orb_false_iff in H as [H _].
  apply bool_decide_eq_false in H.
  destruct (match_here p s); [exfalso; eauto | reflexivity].
Qed.

Lemma search_false_tail (p : pattern) (x : char) (s : str) :
  search p (x :: s) = false -> search p s = false.
Proof. simpl. intros H. now apply orb_false_iff in H as [_ H]. Qed.

Lemma search_false_drop (p : pattern) (k : nat) (s : str) :
  search p s = false -> search p (drop k s) = false.
Proof.
  revert s. induction k as [|k IH]; intros s H; [exact H|].
  destruct s as [|x s]; [exact H|].
  simpl. apply IH. eapply search_false_tail, H.
Qed.

Lemma search_cons_false (p : pattern) (x : char) (s : str) :
  match_here p (x :: s) = None -> search p s = false -> search p (x :: s) = false.
Proof. intros H1 H2. cbn [search]. rewrite H1, H2. reflexivity. Qed.

(** *** [re.sub] *)

Lemma sub_nil (p : pattern) (t : template) :
  sub p t [] = match match_here p [] with Some _ => expand t [] | None => [] end.
Proof. now simp sub. Qed.

Lemma sub_cons (p : pattern) (t : template) (x : char) (s : str) :
  sub p t (x :: s) =
  match match_here p (x :: s) with
  | Some (S n) => expand t (take (S n) (x :: s)) ++ sub p t (drop n s)
  | Some 0 => expand t [] ++ x :: sub p t s
  | None => x :: sub p t s
  end.
Proof.
  simp sub. destruct (match_here p (x :: s)) as [[|n]|]; now simp sub.
Qed.

(** Where the pattern matches at the head, the match is replaced and the
    scan resumes behind it. *)
Lemma sub_hit (p : pattern) (t : template) (s : str) (n : nat) :
  match_here p s = Some (S n) ->
  sub p t s = expand t (take (S n) s) ++ sub p t (drop (S n) s).
Proof.
  intros H. destruct s as [|x s].
  - apply match_here_sound in H as [H _]. simpl in H. lia.
  - rewrite sub_cons, H. reflexivity.
Qed.

(** Characters before the first match are copied. *)
Lemma sub_skip (p : pattern) (t : template) (pre rest : str) :
  none_before p (length pre) (pre ++ rest) = true ->
  sub p t (pre ++ rest) = pre ++ sub p t rest.
Proof.
  induction pre as [|x pre IH]; intros H; [reflexivity|].
  cbn [length app none_before] in H. apply andb_true_iff in H as [H0 H].
  apply negb_true_iff, bool_decide_eq_false in H0.
  simpl app. rewrite sub_cons.
  destruct (match_here p (x :: pre ++ rest)); [exfalso; eauto|].
  f_equal. now apply IH.
Qed.

(** A text without a match is left as it is. *)
Lemma sub_no_match (p : pattern) (t : template) (s : str) :
  search p s = false -> sub p t s = s.
Proof.
  induction s as [|x s IH]; intros H.
  - rewrite sub_nil, (search_false_head _ _ H). reflexivity.
  - rewrite sub_cons, (search_false_head _ _ H). f_equal.
    apply IH. eapply search_false_tail, H.
Qed.

Lemma none_before_search (p : pattern) (k : nat) (s : str) :
  search p s = false -> none_before p k s = true.
Proof.
  revert s. induction k as [|k IH]; intros s H; [reflexivity|].
  cbn [none_before]. rewrite (search_false_head _ _ H).
  destruct s as [|x s]; [reflexivity|].
  simpl. apply IH. eapply search_false_tail, H.
Qed.

End ReFacts.

(** Taking a pattern apart, a literal run or a [\s*] at a time. *)
Ltac lang_literal H := apply lang_lits in H as (? & -> & H).
Ltac lang_spaces H w Hw := apply lang_star in H as (w & ? & -> & Hw & H).
Ltac lang_intro_literal :=
  apply lang_lits; eexists; split; [reflexivity|].
Ltac lang_intro_spaces w :=
  apply lang_star; exists w; eexists; split; [reflexivity|]; split; [assumption|].

(** ** Step 2: the binding-narrowing transform *)

Section Step2Facts.

Import Text Re.

(** The matches of the pattern of step 2 are the two-name destructures
    with whitespace in the five places. *)
Lemma lang_binding_re (m : str) :
  lang binding_re m <->
  exists ws1 ws2 ws3 ws4 ws5,
    is_ws ws1 /\ is_ws ws2 /\ is_ws ws3 /\ is_ws ws4 /\ is_ws ws5 /\
    m = two_name ws1 ws2 ws3 ws4 ws5.
Proof.
  unfold binding_re, two_name, lits, is_ws. split.
  - intros H.
    lang_literal H. lang_spaces H w1 H1. lang_literal H. lang_spaces H w2 H2.
    lang_literal H. lang_spaces H w3 H3. lang_literal H. lang_spaces H w4 H4.
    lang_literal H. lang_spaces H w5 H5. apply lang_lits_end in H as ->.
    exists w1, w2, w3, w4, w5. auto 10.
  - intros (w1 & w2 & w3 & w4 & w5 & H1 & H2 & H3 & H4 & H5 & ->).
    lang_intro_literal. lang_intro_spaces w1. lang_intro_literal. lang_intro_spaces w2.
    lang_intro_literal. lang_intro_spaces w3. lang_intro_literal. lang_intro_spaces w4.
    lang_intro_literal. lang_intro_spaces w5. now apply lang_lits_end.
Qed.

(** Every match of the script's pattern is a two-name destructure in the
    sense of the specification; the converse fails on a space before the
    comma. *)
Lemma lang_binding_re_tokens (m : str) : lang binding_re m -> lang two_name_tokens m.
Proof.
  unfold binding_re, two_name_tokens, lits, is_ws. intros H.
  lang_literal H. lang_spaces H w1 H1.
  change (lit "supabase,") with (lit "supabase" ++ lit ",") in H.
  rewrite map_app, <- app_assoc in H.
  lang_literal H. lang_literal H. lang_spaces H w2 H2.
  lang_literal H. lang_spaces H w3 H3. lang_literal H. lang_spaces H w4 H4.
  lang_literal H. lang_spaces H w5 H5. apply lang_lits_end in H as ->.
  lang_intro_literal. lang_intro_spaces w1. lang_intro_literal.
  assert (H0 : Forall (fun x => is_space x = true) []) by constructor.
  lang_intro_spaces (@nil char).
  lang_intro_literal. lang_intro_spaces w2.
  lang_intro_literal. lang_intro_spaces w3. lang_intro_literal. lang_intro_spaces w4.
  lang_intro_literal. lang_intro_spaces w5. now apply lang_lits_end.
Qed.

Lemma binding_re_separated : separated binding_re = true.
Proof. reflexivity. Qed.

Lemma binding_re_cons : binding_re = Lit (chr "{") :: tail binding_re.
Proof. reflexivity. Qed.

Lemma binding_repl_const (m : str) : expand binding_repl m = one_name.
Proof. reflexivity. Qed.

(** A match begins with the only brace it has. *)
Lemma lang_binding_re_brace (m : str) :
  lang binding_re m -> exists m', m = chr "{" :: m' /\ chr "{" ∉ m'.
Proof.
  rewrite binding_re_cons. intros (m' & -> & H). exists m'. split; [reflexivity|].
  apply lang_alphabet in H. intros Hin.
  rewrite Forall_forall in H. apply H in Hin. vm_compute in Hin. discriminate.
Qed.

Lemma match_binding_re_other (x : char) (s : str) :
  x <> chr "{" -> match_here binding_re (x :: s) = None.
Proof. rewrite binding_re_cons. apply match_here_lit_head. Qed.

Lemma match_binding_re_pos (s : str) : match_here binding_re s <> Some 0.
Proof. rewrite binding_re_cons. apply match_here_lit_pos. Qed.

Lemma step2_nil : step2 [] = [].
Proof. reflexivity. Qed.

Lemma step2_cons (x : char) (s : str) :
  step2 (x :: s) =
  match match_here binding_re (x :: s) with
  | Some (S n) => one_name ++ step2 (drop n s)
  | _ => x :: step2 s
  end.
Proof.
  unfold step2. rewrite sub_cons.
  destruct (match_here binding_re (x :: s)) as [[|n]|] eqn:E; try reflexivity.
  now apply match_binding_re_pos in E.
Qed.

(** Text without a brace is copied. *)
Lemma step2_copy (a b : str) : chr "{" ∉ a -> step2 (a ++ b) = a ++ step2 b.
Proof.
  induction a as [|x a IH]; intros Ha; [reflexivity|].
  apply not_elem_of_cons in Ha as [Hx Ha].
  simpl app. rewrite step2_cons, match_binding_re_other by auto.
  now rewrite IH.
Qed.

(** The output begins with a brace where the input does. *)
Lemma step2_brace (b : str) :
  step2 (chr "{" :: b) = chr "{" :: tail (step2 (chr "{" :: b)).
Proof.
  rewrite step2_cons. now destruct (match_here _ _) as [[|n]|].
Qed.

Lemma split_at_brace (s : str) :
  exists a b, s = a ++ b /\ (chr "{" ∉ a) /\ (b = [] \/ exists b', b = chr "{" :: b').
Proof.
  induction s as [|x s (a & b & -> & Ha & Hb)].
  - exists [], []. split; [reflexivity|]. split; [apply not_elem_of_nil | auto].
  - destruct (decide (x = chr "{")) as [->|Hx].
    + exists [], (chr "{" :: a ++ b). split; [reflexivity|].
      split; [apply not_elem_of_nil | eauto].
    + exists (x :: a), b. split; [reflexivity|]. split; [|exact Hb].
      apply not_elem_of_cons. auto.
Qed.

(** A word without [c] that begins [a ++ c :: v] lies within [a]. *)
Lemma app_blocked (m r a v : str) (c : char) :
  m ++ r = a ++ c :: v -> c ∉ m -> exists r', a = m ++ r'.
Proof.
  revert a. induction m as [|x m IH]; intros a H Hc; [eauto|].
  apply not_elem_of_cons in Hc as [Hx Hc].
  destruct a as [|y a]; simpl in H; injection H as -> H.
  - contradiction.
  - destruct (IH _ H Hc) as [r' ->]. eauto.
Qed.

(** The brace that opens no match in the input opens none in the
    output. *)
Lemma step2_head_no_match (s : str) :
  match_here binding_re (chr "{" :: s) = None ->
  match_here binding_re (chr "{" :: step2 s) = None.
Proof.
  intros E. destruct (match_here binding_re (chr "{" :: step2 s)) as [k|] eqn:E'; [|reflexivity].
  exfalso. apply match_here_sound in E' as [Hk Hl].
  destruct (lang_binding_re_brace _ Hl) as (m' & Hm & Hb).
  assert (Hpre : exists r, step2 s = m' ++ r).
  { pose proof (take_drop k (chr "{" :: step2 s)) as Htd. rewrite Hm in Htd.
    simpl in Htd. injection Htd as Htd. eauto. }
  destruct Hpre as [r Hr].
  destruct (split_at_brace s) as (a & b & -> & Ha & Hb').
  rewrite step2_copy in Hr by exact Ha.
  assert (Ha' : exists r', a = m' ++ r').
  { destruct Hb' as [->|[b' ->]].
    - rewrite step2_nil, app_nil_r in Hr. eauto.
    - rewrite step2_brace in Hr. symmetry in Hr. eapply app_blocked; eauto. }
  destruct Ha' as [r' ->].
  rewrite Hm in Hl.
  destruct (match_here_complete binding_re (chr "{" :: m') (r' ++ b) Hl) as [n Hn].
  change ((chr "{" :: m') ++ r' ++ b) with (chr "{" :: m' ++ r' ++ b) in Hn.
  rewrite <- app_assoc in E. congruence.
Qed.

(** The replacement opens no match, whatever follows it. *)
Lemma search_one_name (v : str) :
  search binding_re v = false -> search binding_re (one_name ++ v) = false.
Proof.
  intros H. change (one_name ++ v) with (chr "{" :: (tail one_name ++ v)).
  apply search_cons_false; [reflexivity|].
  cbn [tail one_name lit list_ascii_of_string map app].
  repeat (apply search_cons_false; [apply match_binding_re_other; discriminate|]).
  exact H.
Qed.

(** The output of step 2 holds no match of its pattern. *)
Lemma step2_no_match (s : str) : search binding_re (step2 s) = false.
Proof.
  remember (length s) as n eqn:Hn. revert s Hn.
  induction n as [n IH] using lt_wf_ind. intros s ->.
  destruct s as [|x s]; [reflexivity|].
  rewrite step2_cons.
  destruct (match_here binding_re (x :: s)) as [[|k]|] eqn:E.
  - now apply match_binding_re_pos in E.
  - apply search_one_name. eapply IH; [|reflexivity].
    rewrite length_drop. simpl. lia.
  - apply search_cons_false; [|eapply IH; [|reflexivity]; simpl; lia].
    destruct (decide (x = chr "{")) as [->|Hx].
    + now apply step2_head_no_match.
    + now apply match_binding_re_other.
Qed.

(** Where the input holds a match, the output holds the one-name form. *)
Lemma step2_one_name (s : str) :
  search binding_re s = true -> contains one_name (step2 s).
Proof.
  induction s as [|x s IH]; [discriminate|].
  intros H. rewrite step2_cons.
  destruct (match_here binding_re (x :: s)) as [[|k]|] eqn:E.
  - now apply match_binding_re_pos in E.
  - exists [], (step2 (drop k s)). reflexivity.
  - cbn [search] in H. rewrite E in H. simpl in H.
    apply (contains_app_r _ [x]). auto.
Qed.

(** A brace further on does not change what matches here. *)
Lemma match_binding_re_blocked (x : char) (a rest : str) :
  match_here binding_re (x :: a ++ chr "{" :: rest) = match_here binding_re (x :: a).
Proof.
  destruct (match_here binding_re (x :: a)) as [n|] eqn:E.
  - pose proof (match_here_sound _ _ _ E) as [Hn Hl].
    pose proof (match_here_exact _ _ (drop n (x :: a) ++ chr "{" :: rest)
                  binding_re_separated Hl) as Hx.
    rewrite app_assoc, take_drop, length_take in Hx.
    replace (n `min` length (x :: a)) with n in Hx by lia. exact Hx.
  - destruct (match_here binding_re (x :: a ++ chr "{" :: rest)) as [k|] eqn:E';
      [|reflexivity].
    exfalso. apply match_here_sound in E' as [Hk Hl].
    destruct (lang_binding_re_brace _ Hl) as (m' & Hm & Hb).
    pose proof (take_drop k (x :: a ++ chr "{" :: rest)) as Htd.
    rewrite Hm in Htd, Hl.
    pose proof (f_equal head Htd) as Hx. cbn [head app] in Hx.
    pose proof (f_equal tail Htd) as Ht. cbn [tail app] in Ht.
    destruct (app_blocked _ _ _ _ _ Ht Hb) as [r' ->].
    destruct (match_here_complete binding_re (chr "{" :: m') r' Hl) as [n Hn].
    change ((chr "{" :: m') ++ r') with (chr "{" :: m' ++ r') in Hn. congruence.
Qed.

(** Step 2 works on the text before a brace and on the text from it
    independently. *)
Lemma step2_app_brace (pre rest : str) :
  step2 (pre ++ chr "{" :: rest) = step2 pre ++ step2 (chr "{" :: rest).
Proof.
  remember (length pre) as n eqn:Hn. revert pre Hn.
  induction n as [n IH] using lt_wf_ind. intros pre ->.
  destruct pre as [|x a]; [reflexivity|].
  simpl app. rewrite !(step2_cons x), match_binding_re_blocked.
  destruct (match_here binding_re (x :: a)) as [[|k]|] eqn:E.
  - now apply match_binding_re_pos in E.
  - apply match_here_sound in E as [Hk _]. simpl in Hk.
    rewrite drop_app_le by lia. rewrite <- app_assoc. f_equal.
    eapply IH; [|reflexivity]. rewrite length_drop. simpl. lia.
  - simpl. f_equal. eapply IH; [|reflexivity]. simpl. lia.
Qed.

(** At a match, step 2 writes the one-name form and goes on behind it. *)
Lemma step2_at_match (m post : str) :
  lang binding_re m -> step2 (m ++ post) = one_name ++ step2 post.
Proof.
  intros Hl.
  pose proof (match_here_exact _ _ post binding_re_separated Hl) as E.
  destruct (lang_binding_re_brace _ Hl) as (m' & -> & _).
  unfold step2. rewrite (sub_hit _ _ _ _ E), binding_repl_const.
  rewrite <- (drop_app_length (chr "{" :: m') post) at 2. reflexivity.
Qed.

(** Every match in the text is replaced. *)
Lemma step2_app_match (pre m post : str) :
  lang binding_re m -> step2 (pre ++ m ++ post) = step2 pre ++ one_name ++ step2 post.
Proof.
  intros Hl. rewrite <- (step2_at_match _ _ Hl).
  destruct (lang_binding_re_brace _ Hl) as (m' & -> & _).
  apply step2_app_brace.
Qed.

End Step2Facts.

(** ** Step 3: the import-presence transform *)

Section Step3Facts.

Import Text Re.

(** The matches of the anchor pattern: the anchor line with any character
    but the line feed in the place of the dot. *)
Lemma lang_type_import_re (m : str) :
  lang type_import_re m <-> exists c, c <> LF /\ m = anchor_with c.
Proof.
  unfold type_import_re, anchor_with, lits. split.
  - intros H. lang_literal H. destruct H as (c & m' & -> & Hc & H).
    apply lang_lits_end in H as ->. eauto.
  - intros (c & Hc & ->). lang_intro_literal.
    exists c, (lit "/$types';"). split; [reflexivity|]. split; [exact Hc|].
    now apply lang_lits_end.
Qed.

Lemma anchor_line_dot : anchor_line = anchor_with (chr ".").
Proof. reflexivity. Qed.

Lemma lang_anchor_line : lang type_import_re anchor_line.
Proof. apply lang_type_import_re. exists (chr "."). split; [discriminate | reflexivity]. Qed.

Lemma type_import_re_separated : separated type_import_re = true.
Proof. reflexivity. Qed.

Lemma type_import_re_cons : type_import_re = Lit (chr "i") :: tail type_import_re.
Proof. reflexivity. Qed.

Lemma match_type_import_re_pos (s : str) : match_here type_import_re s <> Some 0.
Proof. rewrite type_import_re_cons. apply match_here_lit_pos. Qed.

Lemma import_repl_expand (m : str) : expand import_repl m = m ++ inserted_text.
Proof. reflexivity. Qed.

Lemma length_anchor_with (c : char) : length (anchor_with c) = 41.
Proof. reflexivity. Qed.

Lemma step3_missing (s : str) :
  markers_missing s = true -> step3 s = sub type_import_re import_repl s.
Proof. unfold step3, markers_missing. now intros ->. Qed.

Lemma step3_present (s : str) : markers_missing s = false -> step3 s = s.
Proof. unfold step3, markers_missing. now intros ->. Qed.

(** The scan of step 3 at a match of the anchor pattern. *)
Lemma sub_anchor (a post : str) :
  lang type_import_re a ->
  sub type_import_re import_repl (a ++ post) =
  a ++ inserted_text ++ sub type_import_re import_repl post.
Proof.
  intros Ha.
  pose proof (match_here_exact _ _ post type_import_re_separated Ha) as E.
  apply lang_type_import_re in Ha as (c & Hc & ->).
  rewrite length_anchor_with in E. rewrite (sub_hit _ _ _ _ E).
  rewrite import_repl_expand, <- app_assoc. reflexivity.
Qed.

(** The first match of the anchor pattern gets the import line after it. *)
Lemma step3_first (pre a post : str) :
  markers_missing (pre ++ a ++ post) = true ->
  lang type_import_re a ->
  none_before type_import_re (length pre) (pre ++ a ++ post) = true ->
  step3 (pre ++ a ++ post) =
  pre ++ a ++ inserted_text ++ sub type_import_re import_repl post.
Proof.
  intros Hm Ha Hpre. rewrite (step3_missing _ Hm), (sub_skip _ _ _ _ Hpre).
  now rewrite sub_anchor.
Qed.

Lemma inserted_app (l t u : str) : inserted t u -> inserted (l ++ t) (l ++ u).
Proof. intros H. induction l; [exact H | now constructor]. Qed.

Lemma inserted_anchor (c : char) (t u : str) :
  inserted t u ->
  inserted (anchor_with c ++ t) (anchor_with c ++ inserted_text ++ u).
Proof.
  intros H.
  change (anchor_with c) with
    ((lit "import type { PageData } from '" ++ c :: lit "/$types'") ++ [chr ";"]).
  rewrite <- !(app_assoc _ [chr ";"]). apply inserted_app. now constructor.
Qed.

(** What step 3 returns, when it scans, is the text with the import line
    put after some semicolons. *)
Lemma sub_inserted (t : str) : inserted t (sub type_import_re import_repl t).
Proof.
  remember (length t) as n eqn:Hn. revert t Hn.
  induction n as [n IH] using lt_wf_ind. intros t ->.
  destruct t as [|x t]; [rewrite sub_nil; constructor|].
  destruct (match_here type_import_re (x :: t)) as [[|k]|] eqn:E.
  - now apply match_type_import_re_pos in E.
  - rewrite (sub_hit _ _ _ _ E), import_repl_expand, <- app_assoc.
    pose proof (match_here_sound _ _ _ E) as [Hk Hl].
    apply lang_type_import_re in Hl as (c & Hc & Hl).
    assert (IH' : inserted (drop (S k) (x :: t))
                    (sub type_import_re import_repl (drop (S k) (x :: t)))).
    { eapply IH; [|reflexivity]. rewrite length_drop. simpl. lia. }
    rewrite <- (take_drop (S k) (x :: t)) at 1. rewrite Hl.
    now apply inserted_anchor.
  - rewrite sub_cons, E. constructor. eapply IH; [|reflexivity]. simpl. lia.
Qed.

(** A word without a semicolon that begins the output begins the input. *)
Lemma inserted_prefix (t u : str) :
  inserted t u ->
  forall m r, chr ";" ∉ m -> u = m ++ r -> exists r', t = m ++ r'.
Proof.
  induction 1 as [|x t u Hi IH|t u Hi IH]; intros m r Hm E.
  - destruct m; [eauto | discriminate].
  - destruct m as [|y m]; [eauto|]. injection E as -> E.
    apply not_elem_of_cons in Hm as [_ Hm].
    destruct (IH _ _ Hm E) as [r' ->]. eauto.
  - destruct m as [|y m]; [eauto|].
    apply not_elem_of_cons in Hm as [Hy _].
    pose proof (f_equal head E) as Ey. cbn [head app] in Ey. congruence.
Qed.

Lemma lang_binding_re_semicolon (m : str) : lang binding_re m -> chr ";" ∉ m.
Proof.
  intros H Hin. apply lang_alphabet in H.
  rewrite Forall_forall in H. apply H in Hin. vm_compute in Hin. discriminate.
Qed.

(** Inserting the import line opens no match of the pattern of step 2 at
    a character that was there before. *)
Lemma inserted_head (t u : str) (x : char) :
  inserted t u ->
  match_here binding_re (x :: t) = None -> match_here binding_re (x :: u) = None.
Proof.
  intros Hi E.
  destruct (match_here binding_re (x :: u)) as [k|] eqn:E'; [|reflexivity].
  exfalso. apply match_here_sound in E' as [Hk Hl].
  pose proof (lang_binding_re_semicolon _ Hl) as Hsc.
  pose proof (take_drop k (x :: u)) as Htd.
  destruct (take k (x :: u)) as [|y m] eqn:Em.
  - destruct (lang_binding_re_brace _ Hl) as (? & ? & _). discriminate.
  - simpl in Htd. injection Htd as -> Htd.
    apply not_elem_of_cons in Hsc as [_ Hsc].
    destruct (inserted_prefix _ _ Hi m _ Hsc (eq_sym Htd)) as [r' ->].
    destruct (match_here_complete binding_re (x :: m) r' Hl) as [n Hn].
    change ((x :: m) ++ r') with (x :: m ++ r') in Hn. congruence.
Qed.

(** Nor does it open one inside the inserted text. *)
Lemma search_inserted_text (u : str) :
  search binding_re u = false -> search binding_re (inserted_text ++ u) = false.
Proof.
  intros H.
  change (inserted_text ++ u) with
    (LF :: lit "  import " ++ chr "{" :: lit " supabase } from '$lib/supabase';" ++ u).
  cbn [lit list_ascii_of_string map app].
  repeat (apply search_cons_false; [apply match_binding_re_other; discriminate|]).
  apply search_cons_false; [reflexivity|].
  repeat (apply search_cons_false; [apply match_binding_re_other; discriminate|]).
  exact H.
Qed.

Lemma inserted_search (t u : str) :
  inserted t u -> search binding_re t = false -> search binding_re u = false.
Proof.
  induction 1 as [|x t u Hi IH|t u Hi IH]; intros H.
  - reflexivity.
  - apply search_cons_false.
    + eapply inserted_head; [exact Hi|]. now apply search_false_head.
    + apply IH. eapply search_false_tail, H.
  - apply search_cons_false; [apply match_binding_re_other; discriminate|].
    apply search_inserted_text, IH. eapply search_false_tail, H.
Qed.

(** Once step 3 has inserted, the module marker is there. *)
Lemma sub_marker (t : str) :
  search type_import_re t = true ->
  contains marker_module (sub type_import_re import_repl t).
Proof.
  induction t as [|x t IH]; [discriminate|]. intros H.
  destruct (match_here type_import_re (x :: t)) as [[|k]|] eqn:E.
  - now apply match_type_import_re_pos in E.
  - rewrite (sub_hit _ _ _ _ E), import_repl_expand, <- app_assoc.
    apply contains_app_r, contains_app_l.
    apply str_in_spec. reflexivity.
  - rewrite sub_cons, E. cbn [search] in H. rewrite E in H. simpl in H.
    apply (contains_app_r _ [x]). auto.
Qed.

End Step3Facts.

(** ** The transforms against the specification *)

Section TransformClaims.

Import Text Re.

(** The end-to-end scenarios of the specification. *)
Example transform_both_steps :
  transform (lit "import type { PageData } from './$types';" ++ LF ::
             lit "const { supabase, session } = data;") =
  lit "import type { PageData } from './$types';" ++ LF ::
  lit "  import { supabase } from '$lib/supabase';" ++ LF ::
  lit "const { session } = data;".
Proof. reflexivity. Qed.

Example transform_already_imported :
  transform (lit "import { supabase } from '$lib/supabase';" ++ LF ::
             lit "import type { PageData } from './$types';" ++ LF ::
             lit "const {supabase,session}=data;") =
  lit "import { supabase } from '$lib/supabase';" ++ LF ::
  lit "import type { PageData } from './$types';" ++ LF ::
  lit "const { session } = data;".
Proof. reflexivity. Qed.

Lemma has_two_name_match (s : str) : has_two_name s <-> has_match binding_re s.
Proof.
  split.
  - intros (pre & w1 & w2 & w3 & w4 & w5 & post & H1 & H2 & H3 & H4 & H5 & ->).
    exists pre, (two_name w1 w2 w3 w4 w5), post. split; [reflexivity|].
    apply lang_binding_re. exists w1, w2, w3, w4, w5. auto 10.
  - intros (pre & m & post & -> & H).
    apply lang_binding_re in H as (w1 & w2 & w3 & w4 & w5 & H1 & H2 & H3 & H4 & H5 & ->).
    exists pre, w1, w2, w3, w4, w5, post. auto 10.
Qed.

Lemma has_anchor_match (s : str) : has_anchor s <-> has_match type_import_re s.
Proof.
  split.
  - intros (pre & c & post & Hc & ->). exists pre, (anchor_with c), post.
    split; [reflexivity|]. apply lang_type_import_re. eauto.
  - intros (pre & m & post & -> & H).
    apply lang_type_import_re in H as (c & Hc & ->). exists pre, c, post. auto.
Qed.

(** The two-name destructure of the specification covers every match of
    the script's pattern. *)
Lemma has_two_name_tokens (s : str) : has_two_name s -> has_match two_name_tokens s.
Proof.
  rewrite has_two_name_match. intros (pre & m & post & -> & H).
  exists pre, m, post. split; [reflexivity|]. now apply lang_binding_re_tokens.
Qed.

(** C1, as the code has it: for every text that holds a two-name
    destructure spaced as the pattern allows (whitespace after the opening
    brace, after the comma, before the closing brace and on either side of
    the equals sign, the comma directly behind [supabase]), the output of
    step 2 holds the one-name form [{ session } = data] and no two-name
    destructure of that shape any more. *)
Theorem step2_replaces_two_name (s : str) :
  has_two_name s -> contains one_name (step2 s) /\ ~ has_two_name (step2 s).
Proof.
  rewrite !has_two_name_match. intros H. apply search_spec in H. split.
  - now apply step2_one_name.
  - apply search_false, step2_no_match.
Qed.

Lemma step2_replaces_two_name_witness :
  let s := lit "const {supabase,  session }= data;" in
  has_two_name s /\ contains one_name (step2 s) /\ ~ has_two_name (step2 s).
Proof.
  intros s.
  assert (H : has_two_name s).
  { apply has_two_name_match, search_spec. vm_compute. reflexivity. }
  split; [exact H|]. exact (step2_replaces_two_name s H).
Defined.

(** C1 fails as it is stated: with whitespace between [supabase] and the
    comma the text holds a two-name destructure with whitespace between
    its tokens, and step 2 changes nothing. *)
Lemma step2_space_before_comma :
  let s := lit "const { supabase , session } = data;" in
  has_match two_name_tokens s /\
  ~ (contains one_name (step2 s) /\ ~ has_match two_name_tokens (step2 s)).
Proof.
  intros s. split.
  - apply search_spec. vm_compute. reflexivity.
  - intros [H _]. apply str_in_spec in H. vm_compute in H. discriminate.
Qed.

(** C7: a text that holds no two-name destructure comes out of step 2 as
    it went in.  (A text free of the destructure in the wider sense of
    [two_name_tokens] is in particular free of it in this sense, see
    [has_two_name_tokens].) *)
Theorem step2_identity (s : str) : ~ has_two_name s -> step2 s = s.
Proof.
  rewrite has_two_name_match. intros H. apply search_false in H.
  now apply sub_no_match.
Qed.

Lemma step2_identity_witness :
  let s := lit "const { session } = data; const { supabase } = other;" in
  ~ has_two_name s /\ step2 s = s.
Proof.
  intros s.
  assert (H : ~ has_two_name s).
  { rewrite has_two_name_match. apply search_false. vm_compute. reflexivity. }
  split; [exact H|]. exact (step2_identity s H).
Defined.

(** C10: wherever a two-name destructure stands and however it is spaced,
    step 2 writes the same text [{ session } = data] in its place, and
    treats the text before and after it on their own. *)
Theorem step2_canonical (pre post ws1 ws2 ws3 ws4 ws5 : str) :
  is_ws ws1 -> is_ws ws2 -> is_ws ws3 -> is_ws ws4 -> is_ws ws5 ->
  step2 (pre ++ two_name ws1 ws2 ws3 ws4 ws5 ++ post) =
  step2 pre ++ lit "{ session } = data" ++ step2 post.
Proof.
  intros H1 H2 H3 H4 H5. apply step2_app_match, lang_binding_re.
  exists ws1, ws2, ws3, ws4, ws5. auto 10.
Qed.

Lemma step2_canonical_witness :
  step2 (lit "let " ++ two_name [LF; 32%N] [] [9%N] [160%N; 32%N] [] ++ lit ";") =
  step2 (lit "let ") ++ lit "{ session } = data" ++ step2 (lit ";").
Proof.
  apply step2_canonical; unfold is_ws; repeat constructor.
Defined.

(** *** Step 3 *)

Lemma markers_missing_spec (s : str) :
  markers_missing s = true <->
  ~ contains marker_import s /\ ~ contains marker_module s.
Proof.
  unfold markers_missing.
  rewrite andb_true_iff, !negb_true_iff, !str_in_false. reflexivity.
Qed.

Lemma markers_missing_app (a b c : str) :
  markers_missing (a ++ b ++ c) = true ->
  markers_missing (a ++ b) = true /\ markers_missing c = true.
Proof.
  rewrite !markers_missing_spec. intros [H1 H2].
  repeat split; intros H.
  - apply H1. rewrite app_assoc. now apply contains_app_l.
  - apply H2. rewrite app_assoc. now apply contains_app_l.
  - apply H1. rewrite app_assoc. now apply contains_app_r.
  - apply H2. rewrite app_assoc. now apply contains_app_r.
Qed.

Lemma import_line_absent (s : str) :
  markers_missing s = true -> occurrences import_line s = 0.
Proof.
  intros H. apply occurrences_0. apply str_in_false. intros (pre & post & ->).
  apply markers_missing_spec in H as [_ H]. apply H.
  exists (pre ++ lit "  import { supabase } from '"), (lit "';" ++ post).
  rewrite <- !app_assoc. reflexivity.
Qed.

(** The inserted line counts once, and nothing around it adds to it. *)
Lemma occurrences_inserted (x post : str) :
  markers_missing (x ++ post) = true ->
  occurrences import_line (x ++ inserted_text ++ post) = 1.
Proof.
  intros H.
  pose proof (markers_missing_app x [] post H) as [Hx Hpost].
  rewrite app_nil_r in Hx.
  change (x ++ inserted_text ++ post) with (x ++ LF :: (import_line ++ post)).
  rewrite occurrences_blocked;
    [| discriminate | apply (bool_decide_unpack (LF ∉ import_line)); vm_compute; exact I].
  rewrite (import_line_absent _ Hx).
  change (import_line ++ post) with
    (lit "  import { supabase } from '$lib/supabase'" ++ chr ";" :: post).
  cbn [lit list_ascii_of_string map app occurrences].
  rewrite (import_line_absent _ Hpost).
  reflexivity.
Qed.

(** C2, as the code has it: in a text that misses both import markers and
    in which the anchor pattern matches once, at an anchor line, step 3
    puts one new import line directly behind that line and changes nothing
    else.  ([re.sub] replaces every match: a text with more matches gets
    one import line behind each of them, see [sub_anchor].) *)
Theorem step3_inserts_after_anchor (pre post : str) :
  markers_missing (pre ++ anchor_line ++ post) = true ->
  none_before type_import_re (length pre) (pre ++ anchor_line ++ post) = true ->
  search type_import_re post = false ->
  step3 (pre ++ anchor_line ++ post) =
    pre ++ anchor_line ++ LF :: import_line ++ post /\
  occurrences import_line (step3 (pre ++ anchor_line ++ post)) = 1.
Proof.
  intros Hm Hpre Hpost.
  assert (E : step3 (pre ++ anchor_line ++ post) =
              pre ++ anchor_line ++ inserted_text ++ post).
  { rewrite (step3_first _ _ _ Hm lang_anchor_line Hpre).
    now rewrite (sub_no_match _ _ _ Hpost). }
  split; [exact E|]. rewrite E, (app_assoc pre).
  apply occurrences_inserted. now rewrite <- app_assoc.
Qed.

Lemma step3_inserts_after_anchor_witness :
  let pre := lit "<script lang='ts'>" ++ [LF] in
  let post := LF :: lit "  export let data: PageData;" in
  step3 (pre ++ anchor_line ++ post) =
    pre ++ anchor_line ++ LF :: import_line ++ post /\
  occurrences import_line (step3 (pre ++ anchor_line ++ post)) = 1.
Proof.
  intros pre post.
  apply (step3_inserts_after_anchor pre post); vm_compute; reflexivity.
Defined.

(** C2 fails as it is stated: a text with the anchor line in it twice
    misses both markers and holds the anchor line, and step 3 gives it two
    new import lines. *)
Lemma step3_two_anchor_lines :
  let s := anchor_line ++ LF :: anchor_line in
  markers_missing s = true /\ contains anchor_line s /\
  occurrences import_line s = 0 /\
  occurrences import_line (step3 s) = 2.
Proof.
  intros s. split; [reflexivity|]. split; [|split; reflexivity].
  exists [], (LF :: anchor_line). reflexivity.
Qed.

(** C4: a text that holds one of the two import markers comes out of
    step 3 as it went in, with the anchor line in it or without. *)
Theorem step3_skips_imported (s : str) :
  contains marker_import s \/ contains marker_module s -> step3 s = s.
Proof.
  intros H. apply step3_present. unfold markers_missing.
  destruct H as [H|H]; apply str_in_spec in H; rewrite H;
    [reflexivity | apply andb_false_r].
Qed.

Lemma step3_skips_imported_witness :
  let s := anchor_line ++ LF :: lit "import { env } from '$lib/supabase/env';" in
  contains anchor_line s /\ step3 s = s.
Proof.
  intros s. split.
  - apply str_in_spec. vm_compute. reflexivity.
  - apply (step3_skips_imported s). right. apply str_in_spec. vm_compute. reflexivity.
Defined.

(** C5, as the code has it: a text that misses both import markers and
    holds no line the anchor pattern matches (the anchor line, with any
    character but a line feed in the place of the dot) comes out of step 3
    as it went in.  Step 3 is a total function of the text: it has no
    failing outcome. *)
Theorem step3_without_anchor (s : str) :
  markers_missing s = true -> ~ has_anchor s -> step3 s = s.
Proof.
  intros Hm Ha. rewrite has_anchor_match in Ha. apply search_false in Ha.
  rewrite (step3_missing _ Hm). now apply sub_no_match.
Qed.

Lemma step3_without_anchor_witness :
  let s := lit "import type { PageData } from '../$types';" in
  markers_missing s = true /\ step3 s = s.
Proof.
  intros s. split; [reflexivity|].
  apply (step3_without_anchor s); [reflexivity|].
  rewrite has_anchor_match. apply search_false. vm_compute. reflexivity.
Defined.

(** C5 fails as it is stated: this text misses both markers and does not
    hold the anchor line, and step 3 changes it. *)
Lemma step3_other_specifier :
  let s := lit "import type { PageData } from 'a/$types';" in
  markers_missing s = true /\ ~ contains anchor_line s /\ step3 s <> s.
Proof.
  intros s. split; [reflexivity|]. split.
  - apply str_in_false. vm_compute. reflexivity.
  - intros H. apply (f_equal length) in H. vm_compute in H. discriminate.
Qed.

(** C9: the anchor pattern does not insist on the dot of ['./$types'].
    Whatever character but the line feed stands in its place, a text that
    misses both markers gets the import line behind the first such line. *)
Theorem step3_any_specifier_char (c : char) (pre post : str) :
  c <> LF ->
  markers_missing (pre ++ anchor_with c ++ post) = true ->
  none_before type_import_re (length pre) (pre ++ anchor_with c ++ post) = true ->
  step3 (pre ++ anchor_with c ++ post) =
  pre ++ anchor_with c ++ LF :: import_line ++
  sub type_import_re import_repl post.
Proof.
  intros Hc Hm Hpre. apply (step3_first _ _ _ Hm); [|exact Hpre].
  apply lang_type_import_re. eauto.
Qed.

Lemma step3_any_specifier_char_witness :
  step3 (lit "import type { PageData } from 'a/$types';") =
  lit "import type { PageData } from 'a/$types';" ++ LF ::
  lit "  import { supabase } from '$lib/supabase';".
Proof.
  exact (step3_any_specifier_char (chr "a") [] []
           ltac:(discriminate) eq_refl eq_refl).
Defined.

(** *** The two steps together *)

(** C6: the transformation of a file's text, step 2 and then step 3, is
    idempotent. *)
Theorem transform_idempotent (s : str) : transform (transform s) = transform s.
Proof.
  unfold transform.
  pose proof (step2_no_match s) as Ht. set (t := step2 s) in *.
  assert (Hfix : forall u, search binding_re u = false -> step2 u = u).
  { intros u Hu. now apply sub_no_match. }
  destruct (markers_missing t) eqn:Hm.
  - rewrite (step3_missing _ Hm).
    destruct (search type_import_re t) eqn:Ha.
    + pose proof (sub_marker _ Ha) as Hmk.
      pose proof (inserted_search _ _ (sub_inserted t) Ht) as Hu.
      rewrite (Hfix _ Hu). apply step3_present. unfold markers_missing.
      apply str_in_spec in Hmk. rewrite Hmk. apply andb_false_r.
    + rewrite (sub_no_match _ _ _ Ha), (Hfix _ Ht), (step3_missing _ Hm).
      now apply sub_no_match.
  - rewrite (step3_present _ Hm), (Hfix _ Ht). now apply step3_present.
Qed.

End TransformClaims.

(** ** The run against the specification *)

Section RunClaims.

Lemma read_text_outcome (path : string) (w : world) :
  (exists content,
     readable w path = true /\
     read_text path w = (inr content, logged w (OpRead path true))) \/
  (exists e,
     readable w path = false /\ is_Exception e = true /\
     read_text path w = (inl e, logged w (OpRead path false))).
Proof.
  unfold read_text, readable.
  destruct (disk w !! path) as [[|[|] wr [m|c]]|];
    try (right; eexists; split; [reflexivity|]; split; [|reflexivity]; reflexivity).
  left. exists c. split; reflexivity.
Qed.

Lemma write_text_outcome (path : string) (content : str) (w : world) :
  (exists n,
     write_text path content w =
     (inr tt, World (<[path := n]> (disk w)) (stdout w) (ops w ++ [OpWrite path true]))) \/
  (exists e,
     is_Exception e = true /\
     write_text path content w = (inl e, logged w (OpWrite path false))).
Proof.
  unfold write_text.
  destruct (disk w !! path) as [[|r [|] t]|];
    try (right; eexists; split; [|reflexivity]; reflexivity);
    left; eexists; reflexivity.
Qed.

(** What one iteration does, whatever the state of the file system: it
    ends normally, prints one line for its file, writes only after a read
    of the same path that succeeded, leaves the disk alone when the read
    failed, and never touches another path. *)
Lemma fix_file_outcome (path : string) (w : world) :
  exists w' line new,
    fix_file path w = (inr tt, w') /\
    stdout w' = stdout w ++ [line] /\ report_of path line /\
    ops w' = ops w ++ new /\
    (new = [OpRead path false] \/ exists ok, new = [OpRead path true; OpWrite path ok]) /\
    (readable w path = false -> disk w' = disk w) /\
    (forall q, q <> path -> disk w' !! q = disk w !! q).
Proof.
  unfold fix_file, fix_file_with, try_except, mbind, io_bind.
  destruct (read_text_outcome path w) as [(c & Hr & ->)|(e & Hr & He & ->)].
  - destruct (write_text_outcome path (step3 (step2 c)) (logged w (OpRead path true)))
      as [(n & ->)|(e & He & ->)]; cbn.
    + eexists _, _, _. split; [reflexivity|]. cbn.
      split; [reflexivity|]. split; [now left|]. split.
      { rewrite <- app_assoc. reflexivity. }
      split; [right; eauto|]. split; [congruence|].
      intros q Hq. now rewrite lookup_insert_ne.
    + rewrite He. eexists _, _, _. split; [reflexivity|]. cbn.
      split; [reflexivity|]. split; [right; eauto|]. split.
      { rewrite <- app_assoc. reflexivity. }
      split; [right; eauto|]. split; [congruence|]. reflexivity.
  - rewrite He. eexists _, _, _. split; [reflexivity|]. cbn.
    split; [reflexivity|]. split; [right; eauto|].
    split; [reflexivity|]. split; [now left|]. split; reflexivity.
Qed.

Lemma guarded_app (path : string) (new rest : list op) :
  new = [OpRead path false] \/ (exists ok, new = [OpRead path true; OpWrite path ok]) ->
  guarded rest = true -> guarded (new ++ rest) = true.
Proof.
  intros [->|[ok ->]] H; cbn.
  - destruct rest as [|[q b|q b] rest]; [reflexivity | exact H | discriminate].
  - rewrite bool_decide_eq_true_2 by reflexivity. exact H.
Qed.

Lemma readable_lookup (w w' : world) (p : string) :
  disk w' !! p = disk w !! p -> readable w' p = readable w p.
Proof. unfold readable. now intros ->. Qed.

(** The loop, over any list of paths. *)
Lemma for_each_outcome (l : list string) (w : world) :
  exists w' lines new,
    for_each l fix_file w = (inr tt, w') /\
    stdout w' = stdout w ++ lines /\ Forall2 report_of l lines /\
    ops w' = ops w ++ new /\ guarded new = true /\
    (forall p, readable w p = false -> disk w' !! p = disk w !! p).
Proof.
  revert w. induction l as [|path l IH]; intros w.
  - exists w, [], []. cbn. rewrite !app_nil_r. repeat split; constructor.
  - destruct (fix_file_outcome path w)
      as (w1 & line & new1 & E1 & Hout1 & Hrep & Hops1 & Hnew1 & Hfail & Hother).
    destruct (IH w1) as (w2 & lines & new2 & E2 & Hout2 & Hreps & Hops2 & Hg & Hdisk).
    exists w2, (line :: lines), (new1 ++ new2).
    split; [cbn; unfold mbind, io_bind; now rewrite E1|].
    split; [now rewrite Hout2, Hout1, <- app_assoc|].
    split; [now constructor|].
    split; [now rewrite Hops2, Hops1, <- app_assoc|].
    split; [now apply (guarded_app path)|].
    intros p Hp.
    assert (E : disk w1 !! p = disk w !! p).
    { destruct (decide (p = path)) as [->|Hne]; [now rewrite Hfail | now apply Hother]. }
    rewrite <- E. apply Hdisk. now rewrite (readable_lookup _ _ _ E).
Qed.

Lemma main_unfold :
  main = (for_each files_to_fix fix_file ≫= fun _ => print "All files fixed!").
Proof. reflexivity. Qed.

Lemma main_outcome (w : world) :
  exists w' lines new,
    main w = (inr tt, w') /\
    stdout w' = stdout w ++ lines ++ ["All files fixed!"%string] /\
    Forall2 report_of files_to_fix lines /\
    ops w' = ops w ++ new /\ guarded new = true /\
    (forall p, readable w p = false -> disk w' !! p = disk w !! p).
Proof.
  destruct (for_each_outcome files_to_fix w)
    as (w1 & lines & new & E & Hout & Hreps & Hops & Hg & Hdisk).
  eexists _, lines, new. rewrite main_unfold. unfold mbind, io_bind. rewrite E.
  split; [reflexivity|]. cbn. rewrite Hout, <- app_assoc. auto.
Qed.

(** C8: in the record of the calls on the file system every write comes
    directly after a read of the same path that succeeded, and a file
    whose read fails is on the disk after the run as it was before. *)
Theorem write_follows_read (w : world) :
  exists new,
    ops (snd (main w)) = ops w ++ new /\ guarded new = true /\
    forall path, readable w path = false ->
                 disk (snd (main w)) !! path = disk w !! path.
Proof.
  destruct (main_outcome w) as (w' & lines & new & E & _ & _ & Hops & Hg & Hdisk).
  exists new. rewrite E. auto.
Qed.

(** The batch scenario of the specification: of the four files the second
    is missing; the run reports three successes and one error and ends
    with the completion message. *)
Example batch_one_missing :
  let page := File true true (inr (lit "const { supabase, session } = data;")) in
  let w := World (list_to_map
                    [ (files_to_fix !!! 0, page); (files_to_fix !!! 2, page);
                      (files_to_fix !!! 3, page) ]) [] [] in
  fst (main w) = inr tt /\
  stdout (snd (main w)) =
    [ "Fixed: " +:+ files_to_fix !!! 0;
      "Error fixing " +:+ files_to_fix !!! 1 +:+
        ": [Errno 2] No such file or directory: '" +:+ files_to_fix !!! 1 +:+ "'";
      "Fixed: " +:+ files_to_fix !!! 2;
      "Fixed: " +:+ files_to_fix !!! 3;
      "All files fixed!" ]%string /\
  disk (snd (main w)) !! (files_to_fix !!! 0) =
    Some (File true true (inr (lit "const { session } = data;"))) /\
  disk (snd (main w)) !! (files_to_fix !!! 1) = None.
Proof. vm_compute. auto. Qed.

End RunClaims.

(** ** More on the transforms *)

Section TransformFacts.

Import Text Re.

(** Every match of the pattern of step 2 is longer than what replaces
    it. *)
Lemma lang_binding_re_length (m : str) :
  lang binding_re m -> length one_name < length m.
Proof.
  intros H.
  apply lang_binding_re in H as (w1 & w2 & w3 & w4 & w5 & _ & _ & _ & _ & _ & ->).
  unfold two_name. rewrite !length_app.
  change (length one_name) with 18. change (length (lit "{")) with 1.
  change (length (lit "supabase,")) with 9. change (length (lit "session")) with 7.
  change (length (lit "}")) with 1. change (length (lit "=")) with 1.
  change (length (lit "data")) with 4. lia.
Qed.

Lemma step2_length_le (s : str) : length (step2 s) <= length s.
Proof.
  remember (length s) as n eqn:Hn. revert s Hn.
  induction n as [n IH] using lt_wf_ind. intros s ->.
  destruct s as [|x s]; [reflexivity|].
  rewrite step2_cons.
  destruct (match_here binding_re (x :: s)) as [[|k]|] eqn:E.
  - now apply match_binding_re_pos in E.
  - pose proof (match_here_sound _ _ _ E) as [Hk Hl].
    apply lang_binding_re_length in Hl. rewrite length_take in Hl.
    assert (Hd : length (step2 (drop k s)) <= length (drop k s)).
    { eapply IH; [|reflexivity]. rewrite length_drop. simpl. lia. }
    rewrite length_drop in Hd. rewrite length_app.
    change (length one_name) with 18 in *. simpl in *. lia.
  - simpl. apply le_n_S. eapply IH; [|reflexivity]. simpl. lia.
Qed.

Lemma step2_length_lt (s : str) :
  search binding_re s = true -> length (step2 s) < length s.
Proof.
  induction s as [|x s IH]; [discriminate|]. intros H.
  rewrite step2_cons.
  destruct (match_here binding_re (x :: s)) as [[|k]|] eqn:E.
  - now apply match_binding_re_pos in E.
  - pose proof (match_here_sound _ _ _ E) as [Hk Hl].
    apply lang_binding_re_length in Hl. rewrite length_take in Hl.
    pose proof (step2_length_le (drop k s)) as Hd.
    rewrite length_drop in Hd. rewrite length_app.
    change (length one_name) with 18 in *. simpl in *. lia.
  - cbn [search] in H. rewrite E in H. simpl in H.
    simpl. apply -> Nat.succ_lt_mono. now apply IH.
Qed.

Lemma inserted_refl (t : str) : inserted t t.
Proof. induction t; now constructor. Qed.

Lemma inserted_length (t u : str) : inserted t u -> length t <= length u.
Proof.
  induction 1 as [|x t u Hi IH|t u Hi IH]; simpl; lia.
Qed.

Lemma step3_inserted (s : str) : inserted s (step3 s).
Proof.
  destruct (markers_missing s) eqn:Hm.
  - rewrite (step3_missing _ Hm). apply sub_inserted.
  - rewrite (step3_present _ Hm). apply inserted_refl.
Qed.

Lemma markers_present_after (s : str) :
  markers_missing s = true -> search type_import_re s = true ->
  markers_missing (step3 s) = false.
Proof.
  intros Hm Ha. rewrite (step3_missing _ Hm). unfold markers_missing.
  pose proof (sub_marker _ Ha) as H. apply str_in_spec in H. rewrite H.
  apply andb_false_r.
Qed.

Lemma step3_stable (s : str) : step3 (step3 s) = step3 s.
Proof.
  destruct (markers_missing s) eqn:Hm.
  - destruct (search type_import_re s) eqn:Ha.
    + apply step3_present. now apply markers_present_after.
    + rewrite (step3_missing _ Hm), (sub_no_match _ _ _ Ha), (step3_missing _ Hm).
      now apply sub_no_match.
  - rewrite (step3_present _ Hm). now apply step3_present.
Qed.

Lemma transform_no_match (s : str) : search binding_re (transform s) = false.
Proof.
  unfold transform. eapply inserted_search; [apply step3_inserted|].
  apply step2_no_match.
Qed.

Lemma transform_stable (s : str) : transform (transform s) = transform s.
Proof.
  pose proof (transform_no_match s) as H. unfold transform at 1.
  unfold step2 at 1. rewrite (sub_no_match _ _ _ H).
  unfold transform. apply step3_stable.
Qed.

(** X1: step 2 on its own is idempotent. *)
Theorem step2_idempotent (s : str) : step2 (step2 s) = step2 s.
Proof. apply sub_no_match, step2_no_match. Qed.

(** X2: step 3 on its own is idempotent: once it has inserted the import
    line it finds the module marker and leaves the text alone. *)
Theorem step3_idempotent (s : str) : step3 (step3 s) = step3 s.
Proof. apply step3_stable. Qed.

(** X3: step 2 changes a text exactly when the text holds a two-name
    destructure. *)
Theorem step2_changes_iff (s : str) : step2 s <> s <-> has_two_name s.
Proof.
  rewrite has_two_name_match, <- search_spec. split.
  - intros H. destruct (search binding_re s) eqn:E; [reflexivity|].
    exfalso. apply H. now apply sub_no_match.
  - intros H E. apply step2_length_lt in H. rewrite E in H. lia.
Qed.

(** X4: step 3 changes a text exactly when the text misses both import
    markers and holds a line the anchor pattern matches. *)
Theorem step3_changes_iff (s : str) :
  step3 s <> s <-> markers_missing s = true /\ has_anchor s.
Proof.
  rewrite has_anchor_match, <- search_spec. split.
  - intros H. destruct (markers_missing s) eqn:Hm.
    + split; [reflexivity|]. destruct (search type_import_re s) eqn:Ha; [reflexivity|].
      exfalso. apply H. rewrite (step3_missing _ Hm). now apply sub_no_match.
    + exfalso. apply H. now apply step3_present.
  - intros [Hm Ha] E. pose proof (markers_present_after _ Hm Ha) as H.
    rewrite E in H. congruence.
Qed.

(** X5: step 2 never makes a text longer, and makes it shorter whenever
    it replaces something: the replacement is shorter than any match. *)
Theorem step2_shortens (s : str) :
  length (step2 s) <= length s /\
  (has_two_name s -> length (step2 s) < length s).
Proof.
  split; [apply step2_length_le|].
  rewrite has_two_name_match, <- search_spec. apply step2_length_lt.
Qed.

(** X6: step 3 removes and alters nothing: its output is its input with
    copies of the inserted text (a line feed and the import line) put
    behind some semicolons, so it is at least as long. *)
Theorem step3_only_inserts (s : str) :
  inserted s (step3 s) /\ length s <= length (step3 s).
Proof.
  split; [apply step3_inserted|]. apply inserted_length, step3_inserted.
Qed.

(** X7: whatever the text, what an iteration writes back holds no
    two-name destructure that the pattern of step 2 would match. *)
Theorem transform_no_two_name (s : str) : ~ has_two_name (transform s).
Proof. rewrite has_two_name_match. apply search_false, transform_no_match. Qed.

(** X8: in what an iteration writes back, a line the anchor pattern
    matches never stands without an import marker somewhere in the
    text. *)
Theorem transform_anchor_has_marker (s : str) :
  has_anchor (transform s) -> markers_missing (transform s) = false.
Proof.
  rewrite has_anchor_match, <- search_spec. unfold transform.
  set (t := step2 s). intros Ha.
  destruct (markers_missing t) eqn:Hm.
  - destruct (search type_import_re t) eqn:Ht.
    + now apply markers_present_after.
    + rewrite (step3_missing _ Hm), (sub_no_match _ _ _ Ht) in Ha. congruence.
  - now rewrite (step3_present _ Hm).
Qed.

Lemma transform_anchor_has_marker_witness :
  let s := lit "import type { PageData } from './$types';" in
  has_anchor (transform s) /\ markers_missing (transform s) = false.
Proof.
  intros s.
  assert (H : has_anchor (transform s)).
  { apply has_anchor_match, search_spec. vm_compute. reflexivity. }
  split; [exact H|]. exact (transform_anchor_has_marker s H).
Defined.

End TransformFacts.

(** ** More on the run *)

Section RunFacts.

Lemma fixed_node_stable (n : node) : fixed_node (fixed_node n) = fixed_node n.
Proof.
  destruct n as [|[|] [|] [m|c]]; try reflexivity.
  simpl. now rewrite transform_stable.
Qed.

Lemma alter_unchanged (d : gmap string node) (path : string) :
  (forall n, d !! path = Some n -> fixed_node n = n) ->
  alter fixed_node path d = d.
Proof.
  intros H. apply map_eq. intros q. rewrite lookup_alter.
  case_decide as Hq; [subst q|reflexivity].
  destruct (d !! path) as [n|] eqn:E; [|reflexivity].
  simpl. now rewrite (H n).
Qed.

Lemma alter_fixed (d : gmap string node) (path : string) (n : node) :
  d !! path = Some n -> <[path := fixed_node n]> d = alter fixed_node path d.
Proof.
  intros E. apply map_eq. intros q. rewrite lookup_alter, lookup_insert.
  case_decide as Hq; [subst q|reflexivity]. now rewrite E.
Qed.

(** One iteration, exactly. *)
Lemma fix_file_exact (path : string) (w : world) :
  fix_file path w =
  (inr tt, World (alter fixed_node path (disk w))
                 (stdout w ++ [report w path]) (ops w ++ calls w path)).
Proof.
  unfold fix_file, fix_file_with, try_except, read_text, write_text, report,
    failure, calls, readable, writable.
  unfold mbind, io_bind, log_op, set_node, raise, print_to, accepting, mret, io_ret.
  destruct (disk w !! path) as [[|[|] [|] [m|c]]|] eqn:E; cbn; try rewrite E; cbn;
    rewrite <- ?app_assoc; try (rewrite alter_unchanged;
      [reflexivity
      | intros n Hn; rewrite E in Hn; first [discriminate | now injection Hn as <-]]).
  rewrite <- (alter_fixed _ _ _ E). reflexivity.
Qed.

Lemma failure_alter (w w' : world) (p q : string) :
  disk w' = alter fixed_node q (disk w) -> failure w' p = failure w p.
Proof.
  intros H. unfold failure. rewrite H, lookup_alter.
  case_decide as Hq; [subst q|reflexivity].
  now destruct (disk w !! p) as [[|[|] [|] [m|c]]|].
Qed.

Lemma report_alter (w w' : world) (p q : string) :
  disk w' = alter fixed_node q (disk w) -> report w' p = report w p.
Proof. intros H. unfold report. now rewrite (failure_alter _ _ _ _ H). Qed.

Lemma calls_alter (w w' : world) (p q : string) :
  disk w' = alter fixed_node q (disk w) -> calls w' p = calls w p.
Proof.
  intros H. unfold calls, readable, writable. rewrite H, lookup_alter.
  case_decide as Hq; [subst q|reflexivity].
  now destruct (disk w !! p) as [[|[|] [|] [m|c]]|].
Qed.

(** The loop, exactly, over any list of paths. *)
Lemma for_each_exact (l : list string) (w : world) :
  for_each l fix_file w =
  (inr tt, World (fixed_disk l (disk w)) (stdout w ++ map (report w) l)
                 (ops w ++ flat_map (calls w) l)).
Proof.
  revert w. induction l as [|path l IH]; intros w.
  - cbn. rewrite !app_nil_r. now destruct w.
  - cbn [for_each]. unfold mbind, io_bind. rewrite fix_file_exact, IH.
    set (w1 := World (alter fixed_node path (disk w)) _ _).
    assert (E : disk w1 = alter fixed_node path (disk w)) by reflexivity.
    rewrite (map_ext (report w1) (report w))
      by (intros p; now apply report_alter with path).
    rewrite (flat_map_ext (calls w1) (calls w))
      by (intros p; now apply calls_alter with path).
    subst w1. cbn. now rewrite <- !app_assoc.
Qed.

(** The script, exactly. *)
Lemma main_exact (w : world) :
  main w =
  (inr tt, World (fixed_disk files_to_fix (disk w))
                 (stdout w ++ map (report w) files_to_fix ++ ["All files fixed!"%string])
                 (ops w ++ flat_map (calls w) files_to_fix)).
Proof.
  rewrite main_unfold. unfold mbind, io_bind. rewrite for_each_exact.
  unfold print, print_to, accepting. cbn [disk stdout ops]. now rewrite <- app_assoc.
Qed.

Lemma fixed_disk_lookup (l : list string) (d : gmap string node) (p : string) :
  fixed_disk l d !! p = if decide (p ∈ l) then fixed_node <$> d !! p else d !! p.
Proof.
  revert d. induction l as [|q l IH]; intros d.
  - cbn. case_decide as H; [|reflexivity]. destruct (not_elem_of_nil _ H).
  - cbn [fixed_disk foldl]. fold (fixed_disk l (alter fixed_node q d)).
    rewrite IH, lookup_alter.
    destruct (decide (p = q)) as [->|Hpq].
    + rewrite (decide_True (P := q = q)) by reflexivity.
      rewrite (decide_True (P := q ∈ q :: l)) by (apply elem_of_cons; now left).
      case_decide; [|reflexivity].
      destruct (d !! q); [|reflexivity]. simpl. now rewrite fixed_node_stable.
    + rewrite (decide_False (P := q = p)) by congruence.
      destruct (decide (p ∈ l)) as [Hl|Hl].
      * rewrite decide_True by (apply elem_of_cons; now right). reflexivity.
      * rewrite decide_False; [reflexivity|].
        intros H. apply elem_of_cons in H as [H|H]; contradiction.
Qed.

Lemma main_disk (w : world) : disk (snd (main w)) = fixed_disk files_to_fix (disk w).
Proof. now rewrite main_exact. Qed.

Lemma fixed_disk_stable (l : list string) (d : gmap string node) :
  fixed_disk l (fixed_disk l d) = fixed_disk l d.
Proof.
  apply map_eq. intros p. rewrite !fixed_disk_lookup.
  case_decide; [|reflexivity].
  destruct (d !! p); [|reflexivity]. simpl. now rewrite fixed_node_stable.
Qed.

Lemma failure_fixed_disk (w w' : world) (l : list string) (p : string) :
  disk w' = fixed_disk l (disk w) -> failure w' p = failure w p.
Proof.
  intros H. unfold failure. rewrite H, fixed_disk_lookup.
  case_decide; [|reflexivity].
  now destruct (disk w !! p) as [[|[|] [|] [m|c]]|].
Qed.

Lemma calls_reads (w : world) (l : list string) :
  map op_path (List.filter is_read (flat_map (calls w) l)) = l.
Proof.
  induction l as [|p l IH]; [reflexivity|].
  cbn [flat_map]. rewrite List.filter_app, map_app, IH.
  unfold calls. now destruct (readable w p).
Qed.

Lemma calls_writes (w : world) (l : list string) :
  map op_path (List.filter (fun o => negb (is_read o)) (flat_map (calls w) l)) =
  List.filter (readable w) l.
Proof.
  induction l as [|p l IH]; [reflexivity|].
  cbn [flat_map List.filter]. rewrite List.filter_app, map_app, IH.
  unfold calls. now destruct (readable w p).
Qed.



(** X11: the script is idempotent as a whole: a second run leaves every
    file as the first run left it, and prints the same lines again. *)
Theorem main_twice (w : world) :
  disk (snd (main (snd (main w)))) = disk (snd (main w)) /\
  stdout (snd (main (snd (main w)))) =
    stdout (snd (main w)) ++ map (report w) files_to_fix ++ ["All files fixed!"%string].
Proof.
  split.
  - rewrite !main_disk. apply fixed_disk_stable.
  - rewrite (main_exact (snd (main w))). cbn [snd stdout]. do 2 f_equal.
    apply map_ext. intros p.
    pose proof (failure_fixed_disk _ _ _ p (main_disk w)) as H.
    unfold report. now rewrite H.
Qed.

(** X12: a file that cannot be opened for writing (it has no write
    permission, or the path is a directory) is on the disk after the run
    as it was before, also when it could be read. *)
Theorem main_unwritable_unchanged (w : world) (path : string) :
  writable w path = false -> disk (snd (main w)) !! path = disk w !! path.
Proof.
  intros H. rewrite main_disk, fixed_disk_lookup. case_decide; [|reflexivity].
  unfold writable in H.
  now destruct (disk w !! path) as [[|[|] [|] [m|c]]|].
Qed.

Lemma main_unwritable_unchanged_witness :
  let path := files_to_fix !!! 0 in
  let node := File true false (inr (lit "const { supabase, session } = data;")) in
  let w := World {[ path := node ]} [] [] in
  readable w path = true /\ writable w path = false /\
  disk (snd (main w)) !! path = Some node.
Proof.
  intros path node w.
  assert (H : writable w path = false) by (vm_compute; reflexivity).
  split; [vm_compute; reflexivity|]. split; [exact H|].
  refine (eq_trans (main_unwritable_unchanged w path H) _).
  vm_compute. reflexivity.
Defined.


End RunFacts.

(** ** The two steps do not interfere *)

Section StepsCommute.

Import Text Re.

Lemma cons_inv {A} (x y : A) (l l' : list A) : x :: l = y :: l' -> x = y /\ l = l'.
Proof. intros H. now injection H. Qed.

Lemma clash_prefix (v u z r : str) : clash v u = true -> u ++ r <> v ++ z.
Proof.
  revert u. induction v as [|y v IH]; intros [|c u] H E; simpl in H; try discriminate.
  apply cons_inv in E as [-> E]. rewrite N.eqb_refl in H. simpl in H.
  exact (IH _ H E).
Qed.

(** A word that begins the output of step 2, and whose braces cannot be
    those of the one-name form, begins the input. *)
Lemma step2_prefix_back (w t : str) :
  brace_safe w = true -> (exists z, step2 t = w ++ z) -> exists z, t = w ++ z.
Proof.
  revert w. induction t as [|x t IH]; intros w Hw [z E].
  - rewrite step2_nil in E. destruct w; [eauto | discriminate].
  - destruct w as [|y v]; [eauto|].
    cbn [brace_safe] in Hw. apply andb_true_iff in Hw as [Hy Hv].
    rewrite step2_cons in E.
    destruct (match_here binding_re (x :: t)) as [[|k]|] eqn:Em.
    + apply cons_inv in E as [-> E]. destruct (IH _ Hv (ex_intro _ z E)) as [z' ->]. eauto.
    + exfalso. change (one_name ++ step2 (drop k t))
        with (chr "{" :: tail one_name ++ step2 (drop k t)) in E.
      apply cons_inv in E as [<- E]. rewrite N.eqb_refl in Hy. simpl in Hy.
      exact (clash_prefix _ _ _ _ Hy E).
    + apply cons_inv in E as [-> E]. destruct (IH _ Hv (ex_intro _ z E)) as [z' ->]. eauto.
Qed.

(** Where a word's second character is foreign to a stretch of text that
    does not end in the word's first character, the word does not begin
    inside that stretch. *)
Lemma str_in_foreign (c1 c2 : char) (n l r : str) :
  c2 ∉ l -> last l <> Some c1 ->
  str_in (c1 :: c2 :: n) (l ++ r) = str_in (c1 :: c2 :: n) r.
Proof.
  induction l as [|y [|y2 l] IH]; intros Hc Hl; [reflexivity| |].
  - simpl in Hl. cbn [app str_in starts_with].
    destruct (N.eqb_spec y c1); [congruence | reflexivity].
  - apply not_elem_of_cons in Hc as [Hy Hc].
    pose proof Hc as Hc'. apply not_elem_of_cons in Hc' as [Hy2 _].
    change ((y :: y2 :: l) ++ r) with (y :: (y2 :: l) ++ r).
    cbn [str_in]. rewrite IH by assumption.
    cbn [app starts_with].
    destruct (N.eqb_spec y2 c2); [congruence|].
    now rewrite andb_false_r.
Qed.

Lemma type_import_re_im :
  type_import_re = Lit (chr "i") :: Lit (chr "m") :: tail (tail type_import_re).
Proof. reflexivity. Qed.

Lemma match_type_import_re_im (t : str) :
  starts_with [chr "i"; chr "m"] t = false -> match_here type_import_re t = None.
Proof.
  rewrite type_import_re_im.
  destruct t as [|y [|z t]]; [reflexivity| |]; cbn [starts_with match_here].
  - now destruct (N.eqb y (chr "i")).
  - destruct (N.eqb y (chr "i")); [|reflexivity].
    destruct (N.eqb z (chr "m")); [discriminate | reflexivity].
Qed.

Lemma none_before_S (p : pattern) (k : nat) (x : char) (t : str) :
  none_before p (S k) (x :: t) =
  negb (bool_decide (is_Some (match_here p (x :: t)))) && none_before p k t.
Proof. reflexivity. Qed.

Lemma none_before_foreign (l r : str) :
  chr "m" ∉ l -> last l <> Some (chr "i") ->
  none_before type_import_re (length l) (l ++ r) = true.
Proof.
  induction l as [|y [|y2 l] IH]; intros Hc Hl; [reflexivity| |].
  - simpl in Hl. cbn [length app none_before].
    rewrite match_type_import_re_im; [reflexivity|].
    cbn [starts_with]. destruct (N.eqb_spec y (chr "i")); [congruence | reflexivity].
  - apply not_elem_of_cons in Hc as [Hy Hc].
    pose proof Hc as Hc'. apply not_elem_of_cons in Hc' as [Hy2 _].
    change ((y :: y2 :: l) ++ r) with (y :: (y2 :: l) ++ r).
    change (length (y :: y2 :: l)) with (S (length (y2 :: l))).
    rewrite none_before_S, IH by assumption.
    rewrite match_type_import_re_im; [reflexivity|].
    cbn [app starts_with].
    destruct (N.eqb_spec y2 (chr "m")); [congruence | now rewrite andb_false_r].
Qed.

Lemma none_before_app (p : pattern) (l t : str) (k : nat) :
  none_before p (length l + k) (l ++ t) =
  none_before p (length l) (l ++ t) && none_before p k t.
Proof.
  induction l as [|x l IH]; [reflexivity|].
  cbn [length app Nat.add]. rewrite !none_before_S, IH. apply andb_assoc.
Qed.

Lemma lang_binding_re_foreign (m : str) (c : char) :
  alphabet binding_re c = false -> lang binding_re m -> c ∉ m.
Proof.
  intros Hc H Hin. apply lang_alphabet in H.
  rewrite Forall_forall in H. apply H in Hin. congruence.
Qed.

Lemma lang_binding_re_last (m : str) : lang binding_re m -> last m = Some (chr "a").
Proof.
  intros H.
  apply lang_binding_re in H as (w1 & w2 & w3 & w4 & w5 & _ & _ & _ & _ & _ & ->).
  unfold two_name. change (lit "data") with (lit "dat" ++ [chr "a"]).
  rewrite !app_assoc. apply last_snoc.
Qed.

(** No match of the pattern of step 2 begins inside an anchor line or
    inside the inserted text. *)
Lemma none_before_anchor (c : char) (v : str) :
  none_before binding_re (length (anchor_with c)) (anchor_with c ++ v) = true.
Proof.
  destruct (N.eqb_spec c (chr "{")) as [->|Hc]; [reflexivity|].
  unfold anchor_with. rewrite <- app_assoc, length_app.
  rewrite none_before_app. apply andb_true_iff. split; [reflexivity|].
  cbn [length app]. rewrite none_before_S, match_binding_re_other by exact Hc.
  reflexivity.
Qed.

Lemma step2_anchor (c : char) (v : str) :
  step2 (anchor_with c ++ v) = anchor_with c ++ step2 v.
Proof. apply sub_skip, none_before_anchor. Qed.

Lemma step2_inserted_text (v : str) :
  step2 (inserted_text ++ v) = inserted_text ++ step2 v.
Proof. apply sub_skip. reflexivity. Qed.

(** No match of the anchor pattern begins inside a two-name destructure
    or inside the one-name form. *)
Lemma sub_in_match (m r : str) :
  lang binding_re m ->
  sub type_import_re import_repl (m ++ r) = m ++ sub type_import_re import_repl r.
Proof.
  intros H. apply sub_skip, none_before_foreign.
  - now apply lang_binding_re_foreign.
  - rewrite (lang_binding_re_last _ H). discriminate.
Qed.

Lemma sub_one_name (v : str) :
  sub type_import_re import_repl (one_name ++ v) =
  one_name ++ sub type_import_re import_repl v.
Proof.
  apply sub_skip, none_before_foreign.
  - apply (bool_decide_unpack (chr "m" ∉ one_name)). vm_compute. exact I.
  - discriminate.
Qed.

(** The anchor pattern matches at the head of the output of step 2 only
    where it matches at the head of the input. *)
Lemma brace_safe_anchor (c : char) : brace_safe (anchor_with c) = true.
Proof.
  destruct (N.eqb c (chr "{")) eqn:Hc.
  - apply N.eqb_eq in Hc as ->. reflexivity.
  - unfold anchor_with. cbn [lit list_ascii_of_string map app brace_safe].
    rewrite Hc. reflexivity.
Qed.

Lemma match_type_import_re_back (t : str) :
  match_here type_import_re t = None ->
  match_here type_import_re (step2 t) = None.
Proof.
  intros E.
  destruct (match_here type_import_re (step2 t)) as [k|] eqn:E'; [|reflexivity].
  exfalso. apply match_here_sound in E' as [Hk Hl].
  pose proof Hl as Ha. apply lang_type_import_re in Ha as (c & Hc & Ha).
  destruct (step2_prefix_back (anchor_with c) t (brace_safe_anchor c)) as [z ->].
  { exists (drop k (step2 t)). now rewrite <- Ha, take_drop. }
  rewrite <- Ha in E.
  destruct (match_here_complete _ _ z Hl) as [n Hn]. congruence.
Qed.

(** The two scans commute. *)
Lemma sub_commute (s : str) :
  step2 (sub type_import_re import_repl s) =
  sub type_import_re import_repl (step2 s).
Proof.
  remember (length s) as n eqn:Hn. revert s Hn.
  induction n as [n IH] using lt_wf_ind. intros s ->.
  destruct s as [|x s]; [reflexivity|].
  destruct (match_here binding_re (x :: s)) as [k|] eqn:E1.
  - pose proof (match_here_sound _ _ _ E1) as [Hk Hl].
    rewrite <- (take_drop k (x :: s)).
    rewrite (sub_in_match _ _ Hl), !(step2_at_match _ _ Hl), sub_one_name.
    f_equal. eapply IH; [|reflexivity].
    rewrite length_drop. destruct k; [now apply match_binding_re_pos in E1|].
    simpl. lia.
  - destruct (match_here type_import_re (x :: s)) as [j|] eqn:E2.
    + pose proof (match_here_sound _ _ _ E2) as [Hj Hl].
      pose proof Hl as Ha. apply lang_type_import_re in Ha as (c & Hc & Ha).
      rewrite <- (take_drop j (x :: s)).
      rewrite (sub_anchor _ _ Hl). rewrite Ha.
      rewrite !step2_anchor, step2_inserted_text.
      rewrite <- Ha, (sub_anchor _ _ Hl). do 2 f_equal.
      eapply IH; [|reflexivity].
      rewrite length_drop. destruct j; [now apply match_type_import_re_pos in E2|].
      simpl. lia.
    + pose proof (match_type_import_re_back _ E2) as E3.
      rewrite step2_cons, E1 in E3 |- *.
      rewrite !sub_cons, E2, E3. rewrite step2_cons.
      rewrite (inserted_head _ _ _ (sub_inserted s) E1). f_equal.
      eapply IH; [|reflexivity]. simpl. lia.
Qed.

(** Step 2 and the occurrences of a word [c1 :: c2 :: n] whose braces are
    safe, in which no match of the pattern begins, whose second character
    is in no match and not in the one-name form, and whose first character
    is not the [a] those end in. *)
Section Occurrences.

Variables (c1 c2 : char) (n : str).
Let word : str := c1 :: c2 :: n.

Hypothesis word_safe : brace_safe word = true.
Hypothesis word_copied :
  forall rest, none_before binding_re (length word) (word ++ rest) = true.
Hypothesis second_foreign : alphabet binding_re c2 = false.
Hypothesis second_not_in_one_name : c2 ∉ one_name.
Hypothesis first_not_a : c1 <> chr "a".

Lemma starts_with_step2 (t : str) : starts_with word (step2 t) = starts_with word t.
Proof.
  apply eq_true_iff_eq. rewrite !starts_with_spec. split.
  - now apply step2_prefix_back.
  - intros [z ->]. exists (step2 z). apply sub_skip, word_copied.
Qed.

Lemma str_in_step2 (s : str) : str_in word (step2 s) = str_in word s.
Proof.
  remember (length s) as k eqn:Hk. revert s Hk.
  induction k as [k IH] using lt_wf_ind. intros s ->.
  destruct s as [|x s]; [reflexivity|].
  destruct (match_here binding_re (x :: s)) as [j|] eqn:E.
  - pose proof (match_here_sound _ _ _ E) as [Hj Hl].
    rewrite <- (take_drop j (x :: s)), (step2_at_match _ _ Hl).
    unfold word. rewrite !str_in_foreign.
    + eapply IH; [|reflexivity]. rewrite length_drop.
      destruct j; [now apply match_binding_re_pos in E|]. simpl. lia.
    + now apply lang_binding_re_foreign.
    + rewrite (lang_binding_re_last _ Hl). congruence.
    + exact second_not_in_one_name.
    + change (last one_name) with (Some (chr "a")). congruence.
  - assert (Ex : step2 (x :: s) = x :: step2 s) by now rewrite step2_cons, E.
    rewrite Ex. cbn [str_in]. f_equal; [now rewrite <- Ex, starts_with_step2|].
    eapply IH; [|reflexivity]. simpl. lia.
Qed.

End Occurrences.

Lemma str_in_step2_import (s : str) :
  str_in marker_import (step2 s) = str_in marker_import s.
Proof.
  change marker_import with (chr "i" :: chr "m" :: lit "port { supabase }").
  apply str_in_step2; try reflexivity; try discriminate.
  apply (bool_decide_unpack (chr "m" ∉ one_name)). vm_compute. exact I.
Qed.

Lemma str_in_step2_module (s : str) :
  str_in marker_module (step2 s) = str_in marker_module s.
Proof.
  change marker_module with (chr "$" :: chr "l" :: lit "ib/supabase").
  apply str_in_step2; try reflexivity; try discriminate.
  apply (bool_decide_unpack (chr "l" ∉ one_name)). vm_compute. exact I.
Qed.

(** X15: step 2 neither brings an import marker into a text nor takes
    one out of it. *)
Theorem step2_keeps_markers (s : str) :
  str_in marker_import (step2 s) = str_in marker_import s /\
  str_in marker_module (step2 s) = str_in marker_module s.
Proof. split; [apply str_in_step2_import | apply str_in_step2_module]. Qed.

(** X16: the two steps commute: narrowing the binding and then seeing to
    the import gives the same text as the other order. *)
Theorem steps_commute (s : str) : step3 (step2 s) = step2 (step3 s).
Proof.
  assert (Hm : markers_missing (step2 s) = markers_missing s).
  { unfold markers_missing. now rewrite str_in_step2_import, str_in_step2_module. }
  destruct (markers_missing s) eqn:E.
  - rewrite (step3_missing _ Hm), (step3_missing _ E). symmetry. apply sub_commute.
  - now rewrite (step3_present _ Hm), (step3_present _ E).
Qed.

End StepsCommute.

(** ** Errors, diagnostics and the end of the run *)

Section Completion.

Variables (read : string -> io str) (write : string -> str -> io unit) (c : console).

(** Standard output takes every line. *)
Hypothesis console_accepts : forall lines, c lines = None.

(** What reading and writing raise are errors: exceptions of class
    [Exception]. *)
Hypothesis errors_only :
  forall path w e w', attempt read write path w = (inl e, w') -> is_Exception e = true.

(** One pass through the loop body: whatever the attempt raised is caught
    and reported, and the body ends normally. *)
Lemma fix_file_with_iteration (path : string) (w : world) :
  fix_file_with read write c path w = (inr tt, iteration read write w path).
Proof.
  pose proof (errors_only path w) as He.
  unfold fix_file_with, iteration, attempt, try_except, mbind, io_bind, print_to in *.
  destruct (read path w) as [[e|content] w1].
  - rewrite (He e w1 eq_refl), console_accepts. reflexivity.
  - destruct (write path (step3 (step2 content)) w1) as [[e|[]] w2].
    + rewrite (He e w2 eq_refl), console_accepts. reflexivity.
    + rewrite console_accepts. reflexivity.
Qed.

Lemma for_each_with (l : list string) (w : world) :
  for_each l (fix_file_with read write c) w = (inr tt, foldl (iteration read write) w l).
Proof.
  revert w. induction l as [|path l IH]; intros w; [reflexivity|].
  cbn [for_each foldl]. unfold mbind, io_bind.
  rewrite fix_file_with_iteration. apply IH.
Qed.


End Completion.

Lemma attempt_text_errors (path : string) (w : world) (e : exn) (w' : world) :
  attempt read_text write_text path w = (inl e, w') -> is_Exception e = true.
Proof.
  unfold attempt, mbind, io_bind.
  destruct (read_text_outcome path w) as [(content & _ & ->)|(e0 & _ & He & ->)].
  - destruct (write_text_outcome path (step3 (step2 content)) (logged w (OpRead path true)))
      as [(n & ->)|(e0 & He & ->)]; [discriminate|].
    intros H. injection H as <- _. exact He.
  - intros H. injection H as <- _. exact He.
Qed.


